(** * Sprite animation timeline engine (Animation.ts) and its registry.

    Shallow embedding of the [Animation] class and of the builder registry.

    Modelling conventions
    - JavaScript numbers are modelled by [Z] (times in integer clock units,
      exact arithmetic); array indices are [Z] as well, since the code lets
      [currentSpriteIndex] and [rightI] go negative.
    - [performance.now()] is an explicit argument of the operations that
      read the clock, one argument per reading: [update] reads the clock
      itself ([now]) and, when it wraps, [start()] reads it again
      ([startNow]).
    - A property that may be [undefined] is an [option]; a call that may
      throw returns a [Result].
    - The object [animationBuilders] is a plain object used as a
      dictionary: its own properties are a [gmap string AnimationBuilder],
      and what a read or a write meets past them on the prototype chain is
      given by a [Host]; a builder is a function from [unit]. *)

From Stdlib Require Import ZArith List Lia.
From stdpp Require Import base strings gmap list.
From Equations Require Import Equations.
Import ListNotations.

Local Open Scope Z_scope.

(** ** Errors and results *)

Inductive JsError : Type :=
| TypeError
| Error (message : string).

Inductive Result (A : Type) : Type :=
| Ok (value : A)
| Throw (e : JsError).
Arguments Ok {A} value.
Arguments Throw {A} e.

(** ** Data model *)

(** [interface AnimSprite]. *)
Record AnimSprite : Type := mkAnimSprite {
  sprite_name : string;
  duration : Z;
  durationUpToNow : Z;
  timestampBegin : option Z;
  timestampEnd : option Z;
  offsetX : option Z;
  offsetY : option Z;
  opacity : option Z;
  hasPlayedSound : bool
}.

(** [Partial<AnimSprite>] as destructured by [addSprite]. *)
Record SpriteDesc : Type := mkSpriteDesc {
  d_name : option string;
  d_duration : option Z;
  d_offsetX : option Z;
  d_offsetY : option Z;
  d_opacity : option Z
}.

(** [class Animation]. *)
Record Animation : Type := mkAnimation {
  name : string;
  loop : bool;
  sprites : list AnimSprite;
  done : bool;
  totalDurationMs : Z;
  currentSpriteIndex : Z;
  timestampStart : Z;
  timestampPause : Z
}.

(** [arr[i]] for a JavaScript number [i]: [undefined] out of range. *)
Definition js_index {A : Type} (l : list A) (i : Z) : option A :=
  if i <? 0 then None else l !! Z.to_nat i.

(** [x || 0] on an optional number. *)
Definition or_zero (x : option Z) : Z :=
  match x with Some v => v | None => 0 end.

(** [s || ''] on an optional string. *)
Definition or_empty (s : option string) : string :=
  match s with Some v => v | None => EmptyString end.

Definition sprites_length (a : Animation) : Z := Z.of_nat (length (sprites a)).

(** ** Frame lookup *)

Section Lookup.
Variable a : Animation.
Variable timestampNow : Z.

Definition beginTime (s : AnimSprite) : Z :=
  or_zero (timestampBegin s) + timestampStart a.
Definition endTime (s : AnimSprite) : Z :=
  or_zero (timestampEnd s) + timestampStart a.

(** The test of line 106. *)
Definition contains_now (s : AnimSprite) : bool :=
  (timestampNow <? endTime s) && (beginTime s <? timestampNow).

Definition midpoint (leftI rightI : Z) : Z := leftI + (rightI - leftI) / 2.

Equations? getAnimIndex_loop (leftI rightI lastIndex : Z) : Result Z
  by wf (Z.to_nat (rightI - leftI + 1)) lt :=
  getAnimIndex_loop leftI rightI lastIndex with Z_le_dec leftI rightI => {
    | right _ => Ok lastIndex
    | left Hle with js_index (sprites a) (midpoint leftI rightI) => {
        | None => Throw TypeError
        | Some s =>
            if contains_now s then Ok (midpoint leftI rightI)
            else if endTime s <=? timestampNow
                 then getAnimIndex_loop (midpoint leftI rightI + 1) rightI
                                        (midpoint leftI rightI)
                 else getAnimIndex_loop leftI (midpoint leftI rightI - 1)
                                        (midpoint leftI rightI) } }.
Proof.
  all: unfold midpoint; pose proof (Z.div_pos (rightI - leftI) 2);
    pose proof (Z.mul_div_le (rightI - leftI) 2); lia.
Qed.
End Lookup.

(** [getAnimIndex]: [lastIndex = 0], [leftI = currentSpriteIndex],
    [rightI = sprites.length - 1]. *)
Definition getAnimIndex (a : Animation) (timestampNow : Z) : Result Z :=
  getAnimIndex_loop a timestampNow (currentSpriteIndex a) (sprites_length a - 1) 0.

(** Ghost trace of the search: the successive values of [midI], in the
    order the loop computes them (the last one is the final [lastIndex]). *)
Section Trace.
Variable a : Animation.
Variable timestampNow : Z.

Equations? visited_loop (leftI rightI : Z) : list Z
  by wf (Z.to_nat (rightI - leftI + 1)) lt :=
  visited_loop leftI rightI with Z_le_dec leftI rightI => {
    | right _ => []
    | left Hle with js_index (sprites a) (midpoint leftI rightI) => {
        | None => [midpoint leftI rightI]
        | Some s =>
            if contains_now a timestampNow s then [midpoint leftI rightI]
            else if endTime a s <=? timestampNow
                 then midpoint leftI rightI
                        :: visited_loop (midpoint leftI rightI + 1) rightI
                 else midpoint leftI rightI
                        :: visited_loop leftI (midpoint leftI rightI - 1) } }.
Proof.
  all: unfold midpoint; pose proof (Z.div_pos (rightI - leftI) 2);
    pose proof (Z.mul_div_le (rightI - leftI) 2); lia.
Qed.
End Trace.

Definition visited (a : Animation) (timestampNow : Z) : list Z :=
  visited_loop a timestampNow (currentSpriteIndex a) (sprites_length a - 1).

(** ** Constructor and mutators *)

(** [new Animation(loop)]. *)
Definition new_Animation (lp : bool) : Animation :=
  {| name := EmptyString; loop := lp || false; sprites := []; done := false;
     totalDurationMs := 0; currentSpriteIndex := 0; timestampStart := 0;
     timestampPause := 0 |}.

Definition set_name (a : Animation) (n : string) : Animation :=
  {| name := n; loop := loop a; sprites := sprites a; done := done a;
     totalDurationMs := totalDurationMs a;
     currentSpriteIndex := currentSpriteIndex a;
     timestampStart := timestampStart a; timestampPause := timestampPause a |}.

Definition set_done (a : Animation) (d : bool) : Animation :=
  {| name := name a; loop := loop a; sprites := sprites a; done := d;
     totalDurationMs := totalDurationMs a;
     currentSpriteIndex := currentSpriteIndex a;
     timestampStart := timestampStart a; timestampPause := timestampPause a |}.

Definition set_timestampStart (a : Animation) (t : Z) : Animation :=
  {| name := name a; loop := loop a; sprites := sprites a; done := done a;
     totalDurationMs := totalDurationMs a;
     currentSpriteIndex := currentSpriteIndex a;
     timestampStart := t; timestampPause := timestampPause a |}.

(** [setCurrentSprite(i)]: no range check. *)
Definition setCurrentSprite (a : Animation) (i : Z) : Animation :=
  {| name := name a; loop := loop a; sprites := sprites a; done := done a;
     totalDurationMs := totalDurationMs a;
     currentSpriteIndex := i;
     timestampStart := timestampStart a; timestampPause := timestampPause a |}.

Definition reset (a : Animation) : Animation :=
  setCurrentSprite (set_done a false) 0.

(** [start()], with [now] the value read from the clock. *)
Definition start (a : Animation) (now : Z) : Animation :=
  set_timestampStart a now.

Definition addSprite (a : Animation) (d : SpriteDesc) : Animation :=
  {| name := name a; loop := loop a;
     sprites := sprites a ++
       [ {| sprite_name := or_empty (d_name d);
            timestampBegin := Some (totalDurationMs a);
            timestampEnd := Some (totalDurationMs a + or_zero (d_duration d));
            duration := or_zero (d_duration d);
            durationUpToNow := totalDurationMs a;
            offsetX := Some (or_zero (d_offsetX d));
            offsetY := Some (or_zero (d_offsetY d));
            opacity := d_opacity d;
            hasPlayedSound := false |} ];
     done := done a;
     totalDurationMs := totalDurationMs a + or_zero (d_duration d);
     currentSpriteIndex := currentSpriteIndex a;
     timestampStart := timestampStart a; timestampPause := timestampPause a |}.

(** [update()], with [now] the value read from the clock at line 120 and
    [startNow] the value [start()] reads when line 125 calls it.  The second
    component tells whether the call returned or threw; the first is the
    object as the call leaves it (a throw in [getAnimIndex] keeps the
    re-basing already done and skips the two assignments after it). *)
Definition update (a : Animation) (now startNow : Z) : Animation * Result unit :=
  let a1 :=
    if currentSpriteIndex a =? sprites_length a - 1 then
      if loop a && (totalDurationMs a <? now - timestampStart a) then
        let newStart := timestampStart a + totalDurationMs a in
        let a' := start (reset a) startNow in
        if now - newStart <? totalDurationMs a'
        then set_timestampStart a' newStart
        else a'
      else a
    else a in
  match getAnimIndex a1 now with
  | Throw e => (a1, Throw e)
  | Ok i =>
      let a2 := setCurrentSprite a1 i in
      if negb (loop a2) then
        if totalDurationMs a2 <=? now - timestampStart a2
        then (set_done a2 true, Ok tt)
        else (a2, Ok tt)
      else (a2, Ok tt)
  end.

(** ** Queries *)

Definition getDurationMs (a : Animation) : Z := totalDurationMs a.

Definition getDurationToIndex (a : Animation) (i : Z) : Z :=
  if sprites_length a <=? i then totalDurationMs a
  else match js_index (sprites a) i with
       | Some s => durationUpToNow s
       | None => 0
       end.

(** [getSpriteName(i?)]: [None] is [undefined]. *)
Definition getSpriteName (a : Animation) (i : option Z) : option string :=
  sprite_name <$>
    js_index (sprites a)
             (match i with Some j => j | None => currentSpriteIndex a end).

Definition isDone (a : Animation) : bool := done a.

(** [getLongestFrameMs()]: [reduce] with initial value 0. *)
Definition getLongestFrameMs (a : Animation) : Z :=
  fold_left (fun ms sprite => if ms <? duration sprite then duration sprite else ms)
            (sprites a) 0.

(** One call of the callback of [getLongestFrameIndex]: the state is the
    captured variable [ms], the accumulator [ind] and the index [i] that
    [reduce] passes next. *)
Definition longest_index_step (st : Z * Z * Z) (sprite : AnimSprite) : Z * Z * Z :=
  let '(ms, ind, i) := st in
  if ms <? duration sprite then (duration sprite, i, i + 1) else (ms, ind, i + 1).

(** [getLongestFrameIndex()]: [let ms = 0] and [reduce] with initial
    value 0. *)
Definition getLongestFrameIndex (a : Animation) : Z :=
  snd (fst (fold_left longest_index_step (sprites a) (0, 0, 0))).

(** Successive [update] calls, each with its two clock readings
    [(now, startNow)]; a throwing call leaves the object as it is at the
    throw and the caller goes on. *)
Definition run_updates (a : Animation) (ticks : list (Z * Z)) : Animation :=
  fold_left (fun acc t => fst (update acc (fst t) (snd t))) ticks a.

(** ** Operations of the public interface that change the object *)

Inductive Op : Type :=
| OpReset
| OpStart (now : Z)
| OpAddSprite (d : SpriteDesc)
| OpUpdate (now startNow : Z)
| OpSetCurrentSprite (i : Z).

Definition apply_op (a : Animation) (o : Op) : Animation :=
  match o with
  | OpReset => reset a
  | OpStart now => start a now
  | OpAddSprite d => addSprite a d
  | OpUpdate now startNow => fst (update a now startNow)
  | OpSetCurrentSprite i => setCurrentSprite a i
  end.

(** Objects obtained from the constructor through the public methods. *)
Inductive reachable : Animation -> Prop :=
| reach_new (lp : bool) : reachable (new_Animation lp)
| reach_op (a : Animation) (o : Op) : reachable a -> reachable (apply_op a o).

(** ** Registry *)

Module Registry.

(** [type AnimationBuilder = () => Animation]. *)
Definition AnimationBuilder : Type := unit -> Animation.

(** The prototype of the object [animationBuilders]: [Object.prototype], as
    the literal [{}] gives it, or the function that an assignment to the
    key ["__proto__"] has put in its place. *)
Inductive Proto : Type :=
| ObjectPrototype
| ReplacedBy (f : AnimationBuilder).

(** What a read of a key finds on the prototype chain, past the own
    properties: nothing (or a falsy value), a truthy value (a built-in
    method or object, which is not an Animation builder), or an accessor
    whose getter throws. *)
Inductive Inherited : Type :=
| NotInherited
| InheritedValue
| InheritedThrows.

(** The prototype chain of the host: what a read of a key finds on it, and
    whether an assignment to a key that is not an own property defines one
    ([false]: the assignment throws, as for an inherited read-only
    property in strict code). *)
Record Host : Type := mkHost {
  chain_read : Proto -> string -> Inherited;
  chain_write : Proto -> string -> bool
}.

(** The object [animationBuilders]: own properties and prototype. *)
Record State : Type := mkState {
  own : gmap string AnimationBuilder;
  proto : Proto
}.

(** [const animationBuilders = {}]. *)
Definition empty : State := {| own := ∅; proto := ObjectPrototype |}.

(** The outcome of the read [animationBuilders[key]]. *)
Inductive Lookup : Type :=
| Builder (builder : AnimationBuilder)
| Undefined
| NotABuilder
| ReadThrows.

(** [animationBuilders[key]].  An own property comes first.  The key
    ["__proto__"] is then answered by the accessor of [Object.prototype],
    whose getter returns the prototype of the object: [Object.prototype]
    itself, which is truthy and no builder, or the function that an
    assignment has put in its place.  Every other key goes up the
    prototype chain. *)
Definition read (h : Host) (reg : State) (key : string) : Lookup :=
  match own reg !! key with
  | Some builder => Builder builder
  | None =>
      if decide (key = "__proto__") then
        match proto reg with
        | ObjectPrototype => NotABuilder
        | ReplacedBy f => Builder f
        end
      else
        match chain_read h (proto reg) key with
        | NotInherited => Undefined
        | InheritedValue => NotABuilder
        | InheritedThrows => ReadThrows
        end
  end.

(** [createAnimationBuilder(name, builder)]: the assignment
    [animationBuilders[name] = builder].  An own property is overwritten.
    Under the key ["__proto__"] the assignment otherwise runs the inherited
    setter, which makes [builder] the prototype and defines no own
    property.  Any other new key is defined when the chain allows it. *)
Definition createAnimationBuilder (h : Host) (reg : State)
    (name : string) (builder : AnimationBuilder) : Result State :=
  match own reg !! name with
  | Some _ => Ok {| own := <[name := builder]> (own reg); proto := proto reg |}
  | None =>
      if decide (name = "__proto__") then
        Ok {| own := own reg; proto := ReplacedBy builder |}
      else if chain_write h (proto reg) name
      then Ok {| own := <[name := builder]> (own reg); proto := proto reg |}
      else Throw TypeError
  end.

(** [hasAnimation(animName)]: the registry is read before the name is
    compared with ['invisible']. *)
Definition hasAnimation (h : Host) (reg : State) (animName : string) : Result bool :=
  match read h reg animName with
  | Builder _ => Ok true
  | NotABuilder => Ok true
  | ReadThrows => Throw TypeError
  | Undefined => Ok (if decide (animName = "invisible") then true else false)
  end.

Definition not_found (animName : string) : string :=
  "No animation exists which is named '" +:+ animName +:+ "'".

(** [createAnimation(animName)] run against the registry [reg] with the
    clock reading [now]; returns the outcome and the registry after the
    call.  A truthy inherited value passes the test [if (builder)]; calling
    it, or assigning [name] to and calling [start] on what it returns, ends
    in a [TypeError]. *)
Definition createAnimation (h : Host) (reg : State)
    (animName : string) (now : Z) : Result Animation * State :=
  if decide (animName = "invisible") then
    let anim := new_Animation false in
    let anim := addSprite anim
      {| d_name := Some "invisible"; d_duration := Some 100;
         d_offsetX := None; d_offsetY := None; d_opacity := None |} in
    (Ok anim, reg)
  else
    match read h reg animName with
    | Builder builder =>
        let anim := builder tt in
        let anim := set_name anim animName in
        let anim := start anim now in
        (Ok anim, reg)
    | NotABuilder => (Throw TypeError, reg)
    | ReadThrows => (Throw TypeError, reg)
    | Undefined => (Throw (Error (not_found animName)), reg)
    end.

(** Modelled from the ECMAScript standard: the property names of
    [Object.prototype] (with its legacy accessors), all truthy when read
    through a plain object. *)
Definition object_prototype_keys : list string :=
  [ "constructor"; "hasOwnProperty"; "isPrototypeOf"; "propertyIsEnumerable";
    "toLocaleString"; "toString"; "valueOf"; "__proto__";
    "__defineGetter__"; "__defineSetter__";
    "__lookupGetter__"; "__lookupSetter__" ].

(** Modelled from the ECMAScript standard: the methods of
    [Function.prototype], and its two accessors that throw. *)
Definition function_prototype_keys : list string := [ "apply"; "bind"; "call" ].

Definition function_throwing_keys : list string := [ "caller"; "arguments" ].

Definition mentions (keys : list string) (key : string) : bool :=
  existsb (String.eqb key) keys.

(** Modelled from the ECMAScript standard: a host whose built-in
    prototypes are untouched, running strict code, with builders written
    as anonymous arrow functions.  Under a replaced prototype the
    function's own [name] (the empty string) and [length] (0) are falsy
    and read-only, and it has no [prototype] property. *)
Definition standard_host : Host :=
  {| chain_read := fun p key =>
       if mentions object_prototype_keys key then InheritedValue
       else match p with
            | ObjectPrototype => NotInherited
            | ReplacedBy _ =>
                if mentions function_throwing_keys key then InheritedThrows
                else if mentions function_prototype_keys key then InheritedValue
                else NotInherited
            end;
     chain_write := fun p key =>
       match p with
       | ObjectPrototype => true
       | ReplacedBy _ =>
           negb (mentions function_throwing_keys key
                 || mentions ["name"; "length"] key)
       end |}.

End Registry.


(** ** Notions used in the statements *)

(** The builder registered under [key]: the one that
    [animationBuilders[key]] yields, put there by the latest
    [createAnimationBuilder(key, ...)]. *)
Definition registered (reg : Registry.State) (key : string)
    : option Registry.AnimationBuilder :=
  match Registry.own reg !! key with
  | Some builder => Some builder
  | None =>
      if decide (key = "__proto__") then
        match Registry.proto reg with
        | Registry.ObjectPrototype => None
        | Registry.ReplacedBy f => Some f
        end
      else None
  end.


(** Every frame ends no earlier than it begins and no later than any
    later frame begins: what [addSprite] produces from non-negative
    durations. *)
Definition sequential (l : list AnimSprite) : Prop :=
  (forall (i : nat) s, l !! i = Some s ->
     or_zero (timestampBegin s) <= or_zero (timestampEnd s)) /\
  (forall (i j : nat) si sj, (i < j)%nat -> l !! i = Some si -> l !! j = Some sj ->
     or_zero (timestampEnd si) <= or_zero (timestampBegin sj)).

(** Two frames [0] and [1] that meet at [now]. *)
Definition meet_at (a : Animation) (now : Z) : Prop :=
  exists s0 s1, sprites a !! 0%nat = Some s0 /\ sprites a !! 1%nat = Some s1 /\
                now = endTime a s0 /\ now = beginTime a s1.

(** [new Animation(lp)] followed by one [addSprite] per descriptor. *)
Definition build (lp : bool) (ds : list SpriteDesc) : Animation :=
  fold_left addSprite ds (new_Animation lp).

Definition frame (n : string) (d : Z) : SpriteDesc :=
  {| d_name := Some n; d_duration := Some d;
     d_offsetX := None; d_offsetY := None; d_opacity := None |}.

Definition two_frames : Animation := build false [frame "a" 100; frame "b" 50].

Definition total_of (l : list Z) : Z := fold_right Z.add 0 l.

(** [duration ?? 0]. *)
Definition desc_duration (d : SpriteDesc) : Z := or_zero (d_duration d).

(** The running total is the sum of the frame durations and every frame
    records the sum of the durations before it. *)
Definition prefix_sums_ok (a : Animation) : Prop :=
  totalDurationMs a = total_of (map duration (sprites a)) /\
  forall (i : nat) s, sprites a !! i = Some s ->
    durationUpToNow s = total_of (map duration (take i (sprites a))).

(** Frames are laid end to end and none ends after the running total. *)
Definition laid_out (a : Animation) : Prop :=
  sequential (sprites a) /\
  forall (i : nat) s, sprites a !! i = Some s ->
    or_zero (timestampEnd s) <= totalDurationMs a.

(** The object on which a looping [update] runs the lookup. *)
Definition rebased (a : Animation) (now startNow : Z) : Animation :=
  if currentSpriteIndex a =? sprites_length a - 1 then
    if totalDurationMs a <? now - timestampStart a then
      if now - (timestampStart a + totalDurationMs a) <? totalDurationMs a
      then set_timestampStart (start (reset a) startNow)
                              (timestampStart a + totalDurationMs a)
      else start (reset a) startNow
    else a
  else a.

Definition looping_two_frames : Animation :=
  setCurrentSprite (start (build true [frame "a" 100; frame "b" 50]) 0) 1.

Definition started_loop : Animation :=
  start (build true [frame "a" 100; frame "b" 50]) 0.

(** The search as the specification words it, written out with the
    comparisons and the floor division themselves: the list is the
    midpoints visited, in order, from the window [leftI .. rightI].  The
    search stops on an empty window or on a midpoint whose frame holds
    [timestampNow] strictly inside; otherwise it goes on to the right of
    the midpoint when the frame has ended and to its left when it has
    not. *)
Inductive spec_search (a : Animation) (timestampNow : Z) : Z -> Z -> list Z -> Prop :=
| spec_search_stop (leftI rightI : Z) :
    rightI < leftI ->
    spec_search a timestampNow leftI rightI []
| spec_search_hit (leftI rightI : Z) (s : AnimSprite) :
    leftI <= rightI ->
    js_index (sprites a) (leftI + (rightI - leftI) / 2) = Some s ->
    or_zero (timestampBegin s) + timestampStart a < timestampNow ->
    timestampNow < or_zero (timestampEnd s) + timestampStart a ->
    spec_search a timestampNow leftI rightI [leftI + (rightI - leftI) / 2]
| spec_search_right (leftI rightI : Z) (s : AnimSprite) (rest : list Z) :
    leftI <= rightI ->
    js_index (sprites a) (leftI + (rightI - leftI) / 2) = Some s ->
    or_zero (timestampEnd s) + timestampStart a <= timestampNow ->
    spec_search a timestampNow (leftI + (rightI - leftI) / 2 + 1) rightI rest ->
    spec_search a timestampNow leftI rightI
                (leftI + (rightI - leftI) / 2 :: rest)
| spec_search_left (leftI rightI : Z) (s : AnimSprite) (rest : list Z) :
    leftI <= rightI ->
    js_index (sprites a) (leftI + (rightI - leftI) / 2) = Some s ->
    timestampNow <= or_zero (timestampBegin s) + timestampStart a ->
    timestampNow < or_zero (timestampEnd s) + timestampStart a ->
    spec_search a timestampNow leftI (leftI + (rightI - leftI) / 2 - 1) rest ->
    spec_search a timestampNow leftI rightI
                (leftI + (rightI - leftI) / 2 :: rest).

Definition three_frames : Animation :=
  build false [frame "a" 100; frame "b" 50; frame "c" 50].

(** The offset at which frame [i] begins: the sum of the durations of the
    frames before it. *)
Definition offset_at (a : Animation) (i : nat) : Z :=
  total_of (map duration (take i (sprites a))).

(** The clock readings of a render loop that keeps up: each [update] reads
    the clock not before the previous reading [prev] and less than [gap]
    after it.  Of a pair only the first reading, the one [update] takes,
    is constrained. *)
Fixpoint dense (gap prev : Z) (ticks : list (Z * Z)) : Prop :=
  match ticks with
  | [] => True
  | t :: rest => prev <= fst t < prev + gap /\ dense gap (fst t) rest
  end.

(** The reading of the last [update] of a run that follows [prev]. *)
Definition last_reading (prev : Z) (ticks : list (Z * Z)) : Z :=
  fold_left (fun _ t => fst t) ticks prev.

(** [b] plays the frames of [a0] and follows the clock: at reading [now]
    its origin is a whole number of cycles after the origin of [a0], [now]
    is within one cycle of it, and the current frame holds [now], ends
    included. *)
Definition tracking (a0 b : Animation) (now : Z) : Prop :=
  sprites b = sprites a0 /\ loop b = true /\ done b = false /\
  totalDurationMs b = totalDurationMs a0 /\
  (exists m, 0 <= m /\
     timestampStart b = timestampStart a0 + m * totalDurationMs a0) /\
  0 <= now - timestampStart b <= totalDurationMs a0 /\
  exists c : nat,
    currentSpriteIndex b = Z.of_nat c /\ (c < length (sprites a0))%nat /\
    offset_at a0 c <= now - timestampStart b <= offset_at a0 (S c).

(** The index is a frame of the sequence, or 0 while there is none. *)
Definition index_ok (a : Animation) : Prop :=
  0 <= currentSpriteIndex a /\
  (currentSpriteIndex a <= sprites_length a - 1 \/ currentSpriteIndex a = 0).

(** An operation that respects the sequence: [setCurrentSprite] is given
    the index of a frame; the others are unrestricted. *)
Definition safe_op (a : Animation) (o : Op) : Prop :=
  match o with
  | OpSetCurrentSprite i => 0 <= i < sprites_length a
  | _ => True
  end.

Fixpoint safe_ops (a : Animation) (ops : list Op) : Prop :=
  match ops with
  | [] => True
  | o :: ops' => safe_op a o /\ safe_ops (apply_op a o) ops'
  end.

(** Every frame carries its own offsets: it begins at its
    [durationUpToNow] and ends its [duration] later. *)
Definition frame_offsets_ok (l : list AnimSprite) : Prop :=
  forall (i : nat) s, l !! i = Some s ->
    timestampBegin s = Some (durationUpToNow s) /\
    timestampEnd s = Some (durationUpToNow s + duration s).

(** * Properties *)

(** ** The search loop *)

Lemma midpoint_bounds (l r : Z) : l <= r -> l <= midpoint l r <= r.
Proof.
  intros H. unfold midpoint.
  pose proof (Z.div_pos (r - l) 2). pose proof (Z.mul_div_le (r - l) 2). lia.
Qed.

(** The loop body, one iteration at a time. *)
Lemma getAnimIndex_loop_step (a : Animation) (now l r last : Z) :
  getAnimIndex_loop a now l r last =
  if l <=? r then
    match js_index (sprites a) (midpoint l r) with
    | None => Throw TypeError
    | Some s =>
        if contains_now a now s then Ok (midpoint l r)
        else if endTime a s <=? now
             then getAnimIndex_loop a now (midpoint l r + 1) r (midpoint l r)
             else getAnimIndex_loop a now l (midpoint l r - 1) (midpoint l r)
    end
  else Ok last.
Proof.
  simp getAnimIndex_loop.
  destruct (Z_le_dec l r) as [H|H]; simpl.
  - rewrite (proj2 (Z.leb_le l r) H).
    destruct (js_index (sprites a) (midpoint l r));
      simp getAnimIndex_loop; reflexivity.
  - rewrite (proj2 (Z.leb_nle l r) H). reflexivity.
Qed.

Lemma visited_loop_step (a : Animation) (now l r : Z) :
  visited_loop a now l r =
  if l <=? r then
    match js_index (sprites a) (midpoint l r) with
    | None => [midpoint l r]
    | Some s =>
        if contains_now a now s then [midpoint l r]
        else if endTime a s <=? now
             then midpoint l r :: visited_loop a now (midpoint l r + 1) r
             else midpoint l r :: visited_loop a now l (midpoint l r - 1)
    end
  else [].
Proof.
  simp visited_loop.
  destruct (Z_le_dec l r) as [H|H]; simpl.
  - rewrite (proj2 (Z.leb_le l r) H).
    destruct (js_index (sprites a) (midpoint l r));
      simp visited_loop; reflexivity.
  - rewrite (proj2 (Z.leb_nle l r) H). reflexivity.
Qed.

(** Induction along the two ways the loop narrows its window. *)
Lemma search_ind (P : Z -> Z -> Prop) :
  (forall l r,
      (l <= r -> P (midpoint l r + 1) r) ->
      (l <= r -> P l (midpoint l r - 1)) -> P l r) ->
  forall l r, P l r.
Proof.
  intros Hstep l r.
  remember (Z.to_nat (r - l + 1)) as n eqn:Hn.
  revert l r Hn.
  induction n as [n IH] using lt_wf_ind; intros l r Hn.
  apply Hstep; intros Hle; pose proof (midpoint_bounds l r Hle);
    (eapply IH; [ | reflexivity ]); lia.
Qed.

Lemma contains_now_spec (a : Animation) (now : Z) (s : AnimSprite) :
  contains_now a now s = true <-> beginTime a s < now < endTime a s.
Proof.
  unfold contains_now. rewrite andb_true_iff, !Z.ltb_lt. lia.
Qed.

Lemma js_index_Some {A : Type} (l : list A) (i : Z) :
  0 <= i < Z.of_nat (length l) -> exists x, js_index l i = Some x.
Proof.
  intros [H0 Hlt]. unfold js_index.
  destruct (Z.ltb_spec i 0); [lia|].
  destruct (lookup_lt_is_Some_2 l (Z.to_nat i)) as [x Hx]; [lia|].
  exists x. exact Hx.
Qed.

Lemma js_index_None {A : Type} (l : list A) (i : Z) :
  i < 0 \/ Z.of_nat (length l) <= i -> js_index l i = None.
Proof.
  intros H. unfold js_index.
  destruct (Z.ltb_spec i 0); [reflexivity|].
  apply lookup_ge_None_2. lia.
Qed.

Lemma js_index_inv {A : Type} (l : list A) (i : Z) (x : A) :
  js_index l i = Some x -> 0 <= i < Z.of_nat (length l).
Proof.
  unfold js_index. destruct (Z.ltb_spec i 0); [discriminate|].
  intros Hl%lookup_lt_Some. lia.
Qed.

Lemma last_cons_default {A : Type} (x d : A) (l : list A) :
  List.last (x :: l) d = List.last l x.
Proof.
  revert x d. induction l as [|y l IH]; intros x d; [reflexivity|].
  change (List.last (x :: y :: l) d) with (List.last (y :: l) d).
  rewrite !IH. reflexivity.
Qed.

Section SearchLemmas.
Variable a : Animation.
Variable now : Z.

Lemma visited_loop_range (l r : Z) :
  Forall (fun m => l <= m <= r) (visited_loop a now l r).
Proof.
  revert l r. apply (search_ind (fun l r => Forall _ (visited_loop a now l r))).
  intros l r IHr IHl. rewrite visited_loop_step.
  destruct (Z.leb_spec l r) as [Hle|Hgt]; [|constructor].
  pose proof (midpoint_bounds l r Hle) as Hm.
  specialize (IHr Hle). specialize (IHl Hle).
  destruct (js_index (sprites a) (midpoint l r)) as [s|];
    [|repeat constructor; lia].
  destruct (contains_now a now s); [repeat constructor; lia|].
  destruct (endTime a s <=? now); constructor; try lia;
    (eapply Forall_impl; [eassumption|]); simpl; intros; lia.
Qed.

Lemma visited_loop_head (l r : Z) :
  l <= r -> hd_error (visited_loop a now l r) = Some (midpoint l r).
Proof.
  intros Hle. rewrite visited_loop_step.
  rewrite (proj2 (Z.leb_le l r) Hle).
  destruct (js_index (sprites a) (midpoint l r)) as [s|]; [|reflexivity].
  destruct (contains_now a now s); [reflexivity|].
  destruct (endTime a s <=? now); reflexivity.
Qed.

(** A visited midpoint whose frame passes the test is what the loop
    returns. *)
Lemma getAnimIndex_loop_found (l r : Z) :
  forall last m s,
    In m (visited_loop a now l r) ->
    js_index (sprites a) m = Some s ->
    contains_now a now s = true ->
    getAnimIndex_loop a now l r last = Ok m.
Proof.
  revert l r.
  apply (search_ind (fun l r => forall last m s,
    In m (visited_loop a now l r) -> js_index (sprites a) m = Some s ->
    contains_now a now s = true -> getAnimIndex_loop a now l r last = Ok m)).
  intros l r IHr IHl last m s.
  rewrite visited_loop_step, getAnimIndex_loop_step.
  destruct (Z.leb_spec l r) as [Hle|Hgt]; [|intros []].
  destruct (js_index (sprites a) (midpoint l r)) as [s0|] eqn:Hs0.
  - destruct (contains_now a now s0) eqn:Hc0.
    + intros [<-|[]] _ _. reflexivity.
    + destruct (endTime a s0 <=? now); intros [<-|Hin] Hs Hc;
        try congruence; eauto.
  - intros [<-|[]] Hs. congruence.
Qed.

(** When no visited midpoint passes the test (and each is a frame of the
    sequence), the loop returns the last one, or the initial [lastIndex]
    when the loop body never ran. *)
Lemma getAnimIndex_loop_fallthrough (l r : Z) :
  forall last,
    (forall m, In m (visited_loop a now l r) ->
       exists s, js_index (sprites a) m = Some s /\ contains_now a now s = false) ->
    getAnimIndex_loop a now l r last = Ok (List.last (visited_loop a now l r) last).
Proof.
  revert l r.
  apply (search_ind (fun l r => forall last,
    (forall m, In m (visited_loop a now l r) ->
       exists s, js_index (sprites a) m = Some s /\ contains_now a now s = false) ->
    getAnimIndex_loop a now l r last = Ok (List.last (visited_loop a now l r) last))).
  intros l r IHr IHl last.
  rewrite visited_loop_step, getAnimIndex_loop_step.
  destruct (Z.leb_spec l r) as [Hle|Hgt]; [|reflexivity].
  destruct (js_index (sprites a) (midpoint l r)) as [s0|] eqn:Hs0.
  - destruct (contains_now a now s0) eqn:Hc0.
    + intros H. destruct (H _ (or_introl eq_refl)) as (s & Hs & Hc). congruence.
    + destruct (endTime a s0 <=? now); intros H.
      * rewrite (IHr Hle (midpoint l r)) by (intros; apply H; right; assumption).
        f_equal. symmetry. apply last_cons_default.
      * rewrite (IHl Hle (midpoint l r)) by (intros; apply H; right; assumption).
        f_equal. symmetry. apply last_cons_default.
  - intros H. destruct (H _ (or_introl eq_refl)) as (s & Hs & Hc). congruence.
Qed.
(** Whichever way the loop ends, what it returns is the last midpoint
    visited (each being a frame of the sequence), or the initial
    [lastIndex] when the loop body never ran. *)
Lemma getAnimIndex_loop_last (l r : Z) :
  forall last,
    (forall m, In m (visited_loop a now l r) ->
       exists s, js_index (sprites a) m = Some s) ->
    getAnimIndex_loop a now l r last = Ok (List.last (visited_loop a now l r) last).
Proof.
  revert l r.
  apply (search_ind (fun l r => forall last,
    (forall m, In m (visited_loop a now l r) ->
       exists s, js_index (sprites a) m = Some s) ->
    getAnimIndex_loop a now l r last = Ok (List.last (visited_loop a now l r) last))).
  intros l r IHr IHl last.
  rewrite visited_loop_step, getAnimIndex_loop_step.
  destruct (Z.leb_spec l r) as [Hle|Hgt]; [|reflexivity].
  destruct (js_index (sprites a) (midpoint l r)) as [s0|] eqn:Hs0.
  - destruct (contains_now a now s0) eqn:Hc0; [reflexivity|].
    destruct (endTime a s0 <=? now); intros H.
    + rewrite (IHr Hle (midpoint l r)) by (intros; apply H; right; assumption).
      f_equal. symmetry. apply last_cons_default.
    + rewrite (IHl Hle (midpoint l r)) by (intros; apply H; right; assumption).
      f_equal. symmetry. apply last_cons_default.
  - intros H. destruct (H _ (or_introl eq_refl)) as (s & Hs). congruence.
Qed.
End SearchLemmas.

Section SearchBounds.
Variable a : Animation.
Variable now : Z.

(** With the window inside the sequence, every index read is a frame. *)
Lemma visited_loop_in_bounds (l r : Z) :
  0 <= l -> r <= sprites_length a - 1 ->
  forall m, In m (visited_loop a now l r) ->
    exists s, js_index (sprites a) m = Some s.
Proof.
  intros Hl Hr m Hin.
  pose proof (visited_loop_range a now l r) as Hall.
  rewrite Forall_forall in Hall. specialize (Hall m).
  apply js_index_Some. unfold sprites_length in Hr.
  rewrite <- list_elem_of_In in Hin. specialize (Hall Hin). lia.
Qed.

(** The loop returns, and returns an index of its window (or the initial
    [lastIndex] when the window is empty). *)
Lemma getAnimIndex_loop_returns (l r : Z) :
  forall last, 0 <= l -> r <= sprites_length a - 1 ->
    exists v, getAnimIndex_loop a now l r last = Ok v /\
              ((l <= r /\ l <= v <= r) \/ (r < l /\ v = last)).
Proof.
  revert l r.
  apply (search_ind (fun l r => forall last, 0 <= l -> r <= sprites_length a - 1 ->
    exists v, getAnimIndex_loop a now l r last = Ok v /\
              ((l <= r /\ l <= v <= r) \/ (r < l /\ v = last)))).
  intros l r IHr IHl last Hl Hr.
  rewrite getAnimIndex_loop_step.
  destruct (Z.leb_spec l r) as [Hle|Hgt]; [|exists last; split; [reflexivity|lia]].
  pose proof (midpoint_bounds l r Hle) as Hm.
  destruct (js_index_Some (sprites a) (midpoint l r)) as [s ->];
    [unfold sprites_length in Hr; lia|].
  destruct (contains_now a now s); [exists (midpoint l r); split; [reflexivity|lia]|].
  destruct (endTime a s <=? now).
  - destruct (IHr Hle (midpoint l r)) as (v & -> & Hv); [lia..|].
    exists v. split; [reflexivity|lia].
  - destruct (IHl Hle (midpoint l r)) as (v & -> & Hv); [lia..|].
    exists v. split; [reflexivity|lia].
Qed.
End SearchBounds.

(** ** Frames laid end to end *)

Lemma boundary_not_contained (a : Animation) (now : Z) (j : nat) (sj : AnimSprite) :
  sequential (sprites a) ->
  sprites a !! j = Some sj ->
  now = beginTime a sj \/ now = endTime a sj ->
  forall (i : nat) si, sprites a !! i = Some si -> contains_now a now si = false.
Proof.
  intros [Hbe Hord] Hj Hnow i si Hi.
  apply not_true_is_false. rewrite contains_now_spec.
  unfold beginTime, endTime in *.
  pose proof (Hbe _ _ Hi). pose proof (Hbe _ _ Hj).
  destruct (lt_eq_lt_dec i j) as [[Hlt| ->]|Hlt].
  - pose proof (Hord _ _ _ _ Hlt Hi Hj). lia.
  - rewrite Hi in Hj. injection Hj as ->. lia.
  - pose proof (Hord _ _ _ _ Hlt Hj Hi). lia.
Qed.

Lemma js_index_lookup {A : Type} (l : list A) (i : Z) (x : A) :
  js_index l i = Some x -> l !! Z.to_nat i = Some x.
Proof. unfold js_index. destruct (i <? 0); [discriminate|tauto]. Qed.

(** The trace of the loop is the search of the specification, as long as
    the window is inside the sequence. *)
Lemma visited_loop_spec (a : Animation) (now : Z) (l r : Z) :
  0 <= l -> r <= sprites_length a - 1 ->
  spec_search a now l r (visited_loop a now l r).
Proof.
  revert l r.
  apply (search_ind (fun l r => 0 <= l -> r <= sprites_length a - 1 ->
    spec_search a now l r (visited_loop a now l r))).
  intros l r IHr IHl Hl Hr. rewrite visited_loop_step.
  destruct (Z.leb_spec l r) as [Hle|Hgt]; [|constructor; exact Hgt].
  pose proof (midpoint_bounds l r Hle) as Hm.
  destruct (js_index_Some (sprites a) (midpoint l r)) as [s Hs];
    [unfold sprites_length in Hr; lia|].
  rewrite Hs. unfold midpoint in *.
  destruct (contains_now a now s) eqn:Hc.
  - apply contains_now_spec in Hc. unfold beginTime, endTime in Hc.
    eapply spec_search_hit; eauto; lia.
  - assert (Hn : ~ (beginTime a s < now < endTime a s)).
    { rewrite <- contains_now_spec, Hc. discriminate. }
    unfold beginTime, endTime in Hn.
    destruct (Z.leb_spec (endTime a s) now) as [He|He]; unfold endTime in He.
    + eapply spec_search_right; eauto. apply IHr; lia.
    + eapply spec_search_left; eauto; [lia|]. apply IHl; lia.
Qed.

(** The search of the specification has one outcome. *)
Lemma spec_search_det (a : Animation) (now : Z) (l r : Z) (ms1 ms2 : list Z) :
  spec_search a now l r ms1 -> spec_search a now l r ms2 -> ms1 = ms2.
Proof.
  intros H1. revert ms2.
  induction H1 as [l r Hgt|l r s Hle Hs Hb He|l r s rest Hle Hs He Hrest IH
                  |l r s rest Hle Hs Hb He Hrest IH];
    intros ms2 H2; inversion H2; subst; try lia; try reflexivity;
    match goal with
    | Ha : js_index _ ?m = Some ?x, Hb : js_index _ ?m = Some ?y |- _ =>
        rewrite Ha in Hb; injection Hb as <-
    end; try lia; f_equal; auto.
Qed.

(** C1 (as amended).  For an Animation with at least one frame and a
    [currentSpriteIndex] that is not negative, [getAnimIndex] runs the
    search of the specification on the window
    [currentSpriteIndex .. sprites.length - 1] (midpoints by floor division,
    strict test on both ends, right when the frame has ended and left
    otherwise), and that search has one outcome.  The result is the last
    midpoint visited, the value of [lastIndex]: a visited midpoint whose
    frame holds [timestampNow] strictly inside ends the search and is
    returned, and when there is none the search runs until the window is
    empty.  On a boundary of frames laid end to end no visited midpoint
    holds [timestampNow] strictly inside.  Which side of a boundary is
    returned depends on the shape of the search: at 100, where frames 0 and
    1 meet, the three-frame sequence 100, 50, 50 gives frame 0 and the
    two-frame sequence 100, 50 gives frame 1. *)
Theorem getAnimIndex_binary_search (a : Animation) (now : Z)
    (Hne : sprites a <> []) (Hidx : 0 <= currentSpriteIndex a) :
  (exists ms,
     spec_search a now (currentSpriteIndex a) (sprites_length a - 1) ms /\
     (forall ms', spec_search a now (currentSpriteIndex a) (sprites_length a - 1) ms' ->
                  ms' = ms) /\
     visited a now = ms /\
     getAnimIndex a now = Ok (List.last ms 0) /\
     (forall m s, In m ms -> js_index (sprites a) m = Some s ->
        or_zero (timestampBegin s) + timestampStart a < now
          < or_zero (timestampEnd s) + timestampStart a ->
        getAnimIndex a now = Ok m) /\
     (sequential (sprites a) ->
        forall (j : nat) sj, sprites a !! j = Some sj ->
          now = or_zero (timestampBegin sj) + timestampStart a \/
          now = or_zero (timestampEnd sj) + timestampStart a ->
          forall m s, In m ms -> js_index (sprites a) m = Some s ->
            ~ (or_zero (timestampBegin s) + timestampStart a < now
                 < or_zero (timestampEnd s) + timestampStart a))) /\
  (meet_at three_frames 100 /\ currentSpriteIndex three_frames = 0 /\
   getAnimIndex three_frames 100 = Ok 0) /\
  (meet_at two_frames 100 /\ currentSpriteIndex two_frames = 0 /\
   getAnimIndex two_frames 100 = Ok 1).
Proof.
  set (ms := visited a now).
  assert (Hspec : spec_search a now (currentSpriteIndex a) (sprites_length a - 1) ms).
  { apply visited_loop_spec; lia. }
  assert (Hin : forall m, In m ms -> exists s, js_index (sprites a) m = Some s).
  { apply visited_loop_in_bounds; [assumption|lia]. }
  split; [|split].
  - exists ms. split; [exact Hspec|]. split; [|split; [reflexivity|split; [|split]]].
    + intros ms' Hms'. exact (spec_search_det _ _ _ _ _ _ Hms' Hspec).
    + apply getAnimIndex_loop_last. exact Hin.
    + intros m s Hm Hs Hc. eapply getAnimIndex_loop_found; eauto.
      apply contains_now_spec. exact Hc.
    + intros Hseq j sj Hj Hb m s Hm Hs Hc.
      apply contains_now_spec in Hc.
      rewrite (boundary_not_contained a now j sj Hseq Hj Hb (Z.to_nat m) s
                 (js_index_lookup _ _ _ Hs)) in Hc.
      discriminate Hc.
  - split; [|split; reflexivity]. vm_compute. eauto 10.
  - split; [|split; reflexivity]. vm_compute. eauto 10.
Qed.

Lemma getAnimIndex_binary_search_witness :
  sprites two_frames <> [] /\ 0 <= currentSpriteIndex two_frames /\
  getAnimIndex two_frames 40 = Ok 0.
Proof.
  assert (Hne : sprites two_frames <> []) by (vm_compute; discriminate).
  assert (Hidx : 0 <= currentSpriteIndex two_frames) by (vm_compute; discriminate).
  split; [exact Hne|]. split; [exact Hidx|].
  destruct (getAnimIndex_binary_search two_frames 40 Hne Hidx)
    as ((ms & _ & _ & Hv & _ & Hfound & _) & _).
  destruct (js_index (sprites two_frames) 0) as [s|] eqn:Hs; [|discriminate Hs].
  apply (Hfound 0 s); [rewrite <- Hv; vm_compute; tauto|exact Hs|].
  vm_compute in Hs. injection Hs as <-. vm_compute. split; reflexivity.
Defined.

(** C1 as stated fails: with one frame and [currentSpriteIndex = -1] (after
    [setCurrentSprite(-1)]) the first midpoint is -1, [sprites[-1]] is
    undefined and the call throws instead of returning an index. *)
Lemma getAnimIndex_negative_index_counterexample :
  let a := setCurrentSprite (build false [frame "a" 100]) (-1) in
  sprites a <> [] /\
  visited a 40 = [-1] /\
  getAnimIndex a 40 = Throw TypeError /\
  ~ (exists i, getAnimIndex a 40 = Ok i).
Proof.
  intros a. split; [vm_compute; discriminate|].
  split; [reflexivity|]. split; [reflexivity|].
  intros [i Hi]. vm_compute in Hi. discriminate Hi.
Qed.

(** C8.  With [0 <= currentSpriteIndex < sprites.length] (so the sequence is
    not empty) and any [timestampNow], [getAnimIndex] returns an index in
    [0 .. sprites.length - 1] (not below [currentSpriteIndex], in fact), and
    every index at which it reads [sprites] is a frame of the sequence. *)
Theorem getAnimIndex_in_bounds (a : Animation) (timestampNow : Z)
    (Hidx : 0 <= currentSpriteIndex a < sprites_length a) :
  (exists i, getAnimIndex a timestampNow = Ok i /\
             0 <= i <= sprites_length a - 1 /\ currentSpriteIndex a <= i) /\
  Forall (fun m => 0 <= m <= sprites_length a - 1 /\
                   exists s, js_index (sprites a) m = Some s)
         (visited a timestampNow).
Proof.
  split.
  - destruct (getAnimIndex_loop_returns a timestampNow (currentSpriteIndex a)
                (sprites_length a - 1) 0) as (v & Hv & Hr); [lia..|].
    exists v. split; [exact Hv|lia].
  - pose proof (visited_loop_range a timestampNow (currentSpriteIndex a)
                  (sprites_length a - 1)) as Hr.
    rewrite Forall_forall in Hr |- *. intros m Hm. specialize (Hr m Hm).
    split; [lia|].
    apply (visited_loop_in_bounds a timestampNow (currentSpriteIndex a)
             (sprites_length a - 1)); [lia..|].
    rewrite <- list_elem_of_In. exact Hm.
Qed.

Lemma getAnimIndex_in_bounds_witness :
  0 <= currentSpriteIndex two_frames < sprites_length two_frames /\
  exists i, getAnimIndex two_frames 1000 = Ok i /\
            0 <= i <= sprites_length two_frames - 1 /\
            currentSpriteIndex two_frames <= i.
Proof.
  assert (Hidx : 0 <= currentSpriteIndex two_frames < sprites_length two_frames)
    by (vm_compute; split; [discriminate|reflexivity]).
  split; [exact Hidx|].
  exact (proj1 (getAnimIndex_in_bounds two_frames 1000 Hidx)).
Defined.

(** ** Appending frames *)

Lemma total_of_app (l1 l2 : list Z) : total_of (l1 ++ l2) = total_of l1 + total_of l2.
Proof. unfold total_of. induction l1 as [|x l1 IH]; simpl; lia. Qed.

Lemma addSprite_prefix_sums_ok (a : Animation) (d : SpriteDesc) :
  prefix_sums_ok a -> prefix_sums_ok (addSprite a d).
Proof.
  intros [Htot Hpre]. split.
  - simpl. rewrite map_app, total_of_app, <- Htot. simpl. lia.
  - intros i s. simpl. intros Hi.
    destruct (Nat.lt_ge_cases i (length (sprites a))) as [Hlt|Hge].
    + rewrite lookup_app_l in Hi by exact Hlt.
      rewrite take_app_le by lia. apply Hpre, Hi.
    + rewrite lookup_app_r in Hi by exact Hge.
      destruct (i - length (sprites a))%nat as [|k] eqn:Hk; [|destruct k; discriminate Hi].
      injection Hi as <-. simpl.
      assert (i = length (sprites a)) as -> by lia.
      rewrite take_app_length. exact Htot.
Qed.

Lemma new_Animation_prefix_sums_ok (lp : bool) : prefix_sums_ok (new_Animation lp).
Proof.
  split; [reflexivity|]. intros i s Hi. simpl in Hi.
  rewrite lookup_nil in Hi. discriminate.
Qed.

Lemma fold_addSprite_prefix_sums_ok (ds : list SpriteDesc) (a : Animation) :
  prefix_sums_ok a -> prefix_sums_ok (fold_left addSprite ds a).
Proof.
  revert a. induction ds as [|d ds IH]; intros a Ha; [exact Ha|].
  simpl. apply IH, addSprite_prefix_sums_ok, Ha.
Qed.

Lemma fold_addSprite_durations (ds : list SpriteDesc) (a : Animation) :
  map duration (sprites (fold_left addSprite ds a)) =
  map duration (sprites a) ++ map desc_duration ds.
Proof.
  revert a. induction ds as [|d ds IH]; intros a; simpl.
  - rewrite app_nil_r. reflexivity.
  - rewrite IH. simpl. rewrite map_app, <- app_assoc. reflexivity.
Qed.

(** C4.  [addSprite] appends exactly one frame; its [durationUpToNow] and
    [timestampBegin] are the total before the call, its [timestampEnd] is
    that total plus the frame's duration (0 when the descriptor has none),
    [hasPlayedSound] is false, and the total grows by that duration.  After
    any sequence of [addSprite] calls on a new Animation the total is the
    sum of the appended durations and each frame's [durationUpToNow] is the
    sum of the durations of the frames before it. *)
Theorem addSprite_appends_frame :
  (forall (a : Animation) (d : SpriteDesc),
     let dur := match d_duration d with Some v => v | None => 0 end in
     exists s,
       sprites (addSprite a d) = sprites a ++ [s] /\
       durationUpToNow s = totalDurationMs a /\
       timestampBegin s = Some (totalDurationMs a) /\
       timestampEnd s = Some (totalDurationMs a + dur) /\
       duration s = dur /\
       hasPlayedSound s = false /\
       totalDurationMs (addSprite a d) = totalDurationMs a + dur) /\
  (forall (lp : bool) (ds : list SpriteDesc),
     let a := build lp ds in
     length (sprites a) = length ds /\
     map duration (sprites a) = map desc_duration ds /\
     totalDurationMs a = total_of (map desc_duration ds) /\
     forall (i : nat) s, sprites a !! i = Some s ->
       durationUpToNow s = total_of (map duration (take i (sprites a)))).
Proof.
  split.
  - intros a d dur. eexists. split; [reflexivity|]. simpl. tauto.
  - intros lp ds a.
    assert (Hd : map duration (sprites a) = map desc_duration ds).
    { unfold a, build. rewrite fold_addSprite_durations. reflexivity. }
    destruct (fold_addSprite_prefix_sums_ok ds (new_Animation lp)
                (new_Animation_prefix_sums_ok lp)) as [Htot Hpre].
    fold (build lp ds) in Htot, Hpre. fold a in Htot, Hpre.
    repeat split.
    + rewrite <- (length_map duration), Hd, length_map. reflexivity.
    + exact Hd.
    + rewrite Htot, Hd. reflexivity.
    + exact Hpre.
Qed.

Lemma addSprite_appends_frame_witness :
  totalDurationMs two_frames = 150 /\
  exists s, sprites two_frames !! 1%nat = Some s /\ durationUpToNow s = 100.
Proof.
  destruct (proj2 addSprite_appends_frame false [frame "a" 100; frame "b" 50])
    as (_ & _ & Htot & Hpre).
  split; [exact Htot|].
  destruct (sprites two_frames !! 1%nat) as [s|] eqn:Hs; [|discriminate Hs].
  exists s. split; [reflexivity|]. exact (Hpre 1%nat s Hs).
Defined.

Lemma lookup_snoc_inv {A : Type} (l : list A) (x y : A) (i : nat) :
  (l ++ [x]) !! i = Some y ->
  ((i < length l)%nat /\ l !! i = Some y) \/ (i = length l /\ y = x).
Proof.
  intros Hi. destruct (Nat.lt_ge_cases i (length l)) as [Hlt|Hge].
  - left. rewrite lookup_app_l in Hi by exact Hlt. auto.
  - right. rewrite lookup_app_r in Hi by exact Hge.
    destruct (i - length l)%nat as [|k] eqn:Hk; [|destruct k; discriminate Hi].
    injection Hi as <-. split; [lia|reflexivity].
Qed.

Lemma addSprite_laid_out (a : Animation) (d : SpriteDesc) :
  0 <= desc_duration d -> laid_out a -> laid_out (addSprite a d).
Proof.
  unfold desc_duration. intros Hd [[Hbe Hord] Hend]. repeat split.
  - intros i s Hi. simpl in Hi.
    apply lookup_snoc_inv in Hi as [[_ Hi]|[_ ->]]; [eauto|simpl; lia].
  - intros i j si sj Hlt Hi Hj. simpl in Hi, Hj.
    apply lookup_snoc_inv in Hi as [[Hli Hi]|[-> ->]];
      apply lookup_snoc_inv in Hj as [[Hlj Hj]|[-> ->]]; try lia.
    + eauto.
    + simpl. eauto.
  - intros i s Hi. simpl in Hi |- *.
    apply lookup_snoc_inv in Hi as [[_ Hi]|[_ ->]].
    + specialize (Hend _ _ Hi). lia.
    + simpl. lia.
Qed.

Lemma fold_addSprite_laid_out (ds : list SpriteDesc) (a : Animation) :
  Forall (fun d => 0 <= desc_duration d) ds ->
  laid_out a -> laid_out (fold_left addSprite ds a).
Proof.
  revert a. induction ds as [|d ds IH]; intros a Hds Ha; [exact Ha|].
  inversion Hds; subst. simpl. apply IH; [assumption|].
  apply addSprite_laid_out; assumption.
Qed.

(** Frames appended with non-negative durations are laid end to end. *)
Lemma build_sequential (lp : bool) (ds : list SpriteDesc) :
  Forall (fun d => 0 <= desc_duration d) ds -> sequential (sprites (build lp ds)).
Proof.
  intros Hds. apply (fold_addSprite_laid_out ds (new_Animation lp) Hds).
  repeat split; simpl; intros; rewrite lookup_nil in *; discriminate.
Qed.

(** ** Registry *)

Lemma read_registered (h : Registry.Host) (reg : Registry.State) (key : string)
    (builder : Registry.AnimationBuilder) :
  registered reg key = Some builder ->
  Registry.read h reg key = Registry.Builder builder.
Proof.
  unfold registered, Registry.read.
  destruct (Registry.own reg !! key); [intros [= ->]; reflexivity|].
  destruct (decide (key = "__proto__")); [|discriminate].
  destruct (Registry.proto reg); [discriminate|intros [= ->]; reflexivity].
Qed.


Lemma registered_own (reg : Registry.State) (key : string)
    (builder : Registry.AnimationBuilder) :
  Registry.own reg !! key = Some builder -> registered reg key = Some builder.
Proof.
  unfold registered. intros ->. reflexivity.
Qed.




(** C6 (as amended).  [createAnimation("invisible")] does not consult the
    registry (whatever it holds, also under ["invisible"]) and returns a
    non-looping Animation with exactly one frame, named ["invisible"], of
    duration 100; the Animation's own [name] field is the empty string the
    constructor put there. *)
Theorem createAnimation_invisible
    (h : Registry.Host) (reg : Registry.State) (now : Z) :
  exists anim s,
    Registry.createAnimation h reg "invisible" now = (Ok anim, reg) /\
    loop anim = false /\
    sprites anim = [s] /\ sprite_name s = "invisible" /\ duration s = 100 /\
    name anim = "".
Proof.
  unfold Registry.createAnimation.
  destruct (decide ("invisible" = "invisible")); [|contradiction].
  eexists. eexists. split; [reflexivity|]. simpl. tauto.
Qed.

(** C6 as stated fails: the returned Animation is not named ["invisible"]. *)
Lemma createAnimation_invisible_name_counterexample :
  ~ (exists anim,
       fst (Registry.createAnimation Registry.standard_host Registry.empty
              "invisible" 0) = Ok anim /\
       loop anim = false /\
       (exists s, sprites anim = [s] /\ sprite_name s = "invisible" /\
                  duration s = 100) /\
       name anim = "invisible").
Proof.
  intros (anim & Hres & _ & _ & Hname).
  vm_compute in Hres. injection Hres as <-. discriminate Hname.
Qed.

(** C7 (as amended).  For a registered name other than ["invisible"] the
    returned Animation is what the builder produced, stamped with the
    requested name and started: its [timestampStart] is the clock reading
    taken by [createAnimation].  For ["invisible"] [start()] is not called:
    [timestampStart] is the constructor's 0 whatever the clock says. *)
Theorem createAnimation_started
    (h : Registry.Host) (reg : Registry.State) (now : Z) :
  (forall (animName : string) (builder : Registry.AnimationBuilder),
     animName <> "invisible" -> registered reg animName = Some builder ->
     exists anim,
       fst (Registry.createAnimation h reg animName now) = Ok anim /\
       anim = start (set_name (builder tt) animName) now /\
       timestampStart anim = now /\ name anim = animName) /\
  (exists anim,
     fst (Registry.createAnimation h reg "invisible" now) = Ok anim /\
     timestampStart anim = 0).
Proof.
  split.
  - intros animName builder Hne Hb. unfold Registry.createAnimation.
    destruct (decide (animName = "invisible")); [contradiction|].
    rewrite (read_registered h reg animName builder Hb).
    eexists. split; [reflexivity|]. simpl. tauto.
  - unfold Registry.createAnimation.
    destruct (decide ("invisible" = "invisible")); [|contradiction].
    eexists. split; reflexivity.
Qed.

Lemma createAnimation_started_witness :
  let reg : Registry.State :=
    {| Registry.own := {[ "walk" := fun _ => two_frames ]};
       Registry.proto := Registry.ObjectPrototype |} in
  "walk" <> "invisible" /\
  registered reg "walk" = Some (fun _ => two_frames) /\
  exists anim,
    fst (Registry.createAnimation Registry.standard_host reg "walk" 5000) = Ok anim /\
    timestampStart anim = 5000 /\ name anim = "walk".
Proof.
  intros reg.
  assert (Hne : "walk" <> "invisible") by discriminate.
  assert (Hb : registered reg "walk" = Some (fun _ => two_frames))
    by (apply registered_own; apply lookup_singleton_eq).
  split; [exact Hne|]. split; [exact Hb|].
  destruct (proj1 (createAnimation_started Registry.standard_host reg 5000)
              "walk" _ Hne Hb) as (anim & Hres & _ & Hts & Hname).
  exists anim. auto.
Defined.

(** C7 as stated fails for ["invisible"]: the Animation returned at clock
    reading 5000 does not hold 5000 in [timestampStart]. *)
Lemma createAnimation_invisible_started_counterexample :
  ~ (exists anim,
       fst (Registry.createAnimation Registry.standard_host Registry.empty
              "invisible" 5000) = Ok anim /\
       timestampStart anim = 5000).
Proof.
  intros (anim & Hres & Hts).
  vm_compute in Hres. injection Hres as <-. discriminate Hts.
Qed.

(** ** Playback advance *)

(** [update] on a non-looping Animation: no re-basing. *)
Lemma update_nonloop (a : Animation) (now startNow : Z) :
  loop a = false ->
  update a now startNow =
  match getAnimIndex a now with
  | Throw e => (a, Throw e)
  | Ok i =>
      if totalDurationMs a <=? now - timestampStart a
      then (set_done (setCurrentSprite a i) true, Ok tt)
      else (setCurrentSprite a i, Ok tt)
  end.
Proof.
  intros Hl. unfold update. rewrite Hl. simpl.
  destruct (currentSpriteIndex a =? sprites_length a - 1);
    destruct (getAnimIndex a now); simpl; rewrite ?Hl; reflexivity.
Qed.

Lemma update_loop (a : Animation) (now startNow : Z) :
  loop a = true ->
  update a now startNow =
  match getAnimIndex (rebased a now startNow) now with
  | Throw e => (rebased a now startNow, Throw e)
  | Ok i => (setCurrentSprite (rebased a now startNow) i, Ok tt)
  end.
Proof.
  intros Hl. unfold update, rebased. rewrite Hl. simpl.
  destruct (currentSpriteIndex a =? sprites_length a - 1);
    [destruct (totalDurationMs a <? now - timestampStart a);
     [destruct (now - (timestampStart a + totalDurationMs a) <? totalDurationMs a)|]|];
    match goal with |- context [getAnimIndex ?x now] =>
      destruct (getAnimIndex x now) end; simpl; rewrite ?Hl; reflexivity.
Qed.

Lemma rebased_fields (a : Animation) (now startNow : Z) :
  loop (rebased a now startNow) = loop a /\ sprites (rebased a now startNow) = sprites a /\
  totalDurationMs (rebased a now startNow) = totalDurationMs a /\
  (done a = false -> done (rebased a now startNow) = false).
Proof.
  unfold rebased.
  destruct (currentSpriteIndex a =? sprites_length a - 1);
    [destruct (totalDurationMs a <? now - timestampStart a);
     [destruct (now - (timestampStart a + totalDurationMs a) <? totalDurationMs a)|]|];
    simpl; tauto.
Qed.

(** [update] never touches the frames, the total or the [loop] flag. *)
Lemma update_fields (a : Animation) (now startNow : Z) :
  loop (fst (update a now startNow)) = loop a /\
  sprites (fst (update a now startNow)) = sprites a /\
  totalDurationMs (fst (update a now startNow)) = totalDurationMs a.
Proof.
  destruct (loop a) eqn:Hl.
  - rewrite update_loop by exact Hl.
    destruct (rebased_fields a now startNow) as (H1 & H2 & H3 & _).
    destruct (getAnimIndex (rebased a now startNow) now); simpl; rewrite ?Hl in *; tauto.
  - rewrite update_nonloop by exact Hl.
    destruct (getAnimIndex a now); [|simpl; tauto].
    destruct (totalDurationMs a <=? now - timestampStart a); simpl; tauto.
Qed.

Lemma update_loop_not_done (a : Animation) (now startNow : Z) :
  loop a = true -> done a = false -> done (fst (update a now startNow)) = false.
Proof.
  intros Hl Hd. rewrite update_loop by exact Hl.
  destruct (rebased_fields a now startNow) as (_ & _ & _ & H). specialize (H Hd).
  destruct (getAnimIndex (rebased a now startNow) now); simpl; exact H.
Qed.

Lemma update_nonloop_keeps_done (a : Animation) (now startNow : Z) :
  loop a = false -> done a = true -> done (fst (update a now startNow)) = true.
Proof.
  intros Hl Hd. rewrite update_nonloop by exact Hl.
  destruct (getAnimIndex a now); [|exact Hd].
  destruct (totalDurationMs a <=? now - timestampStart a); simpl; auto.
Qed.

Lemma getAnimIndex_returns (a : Animation) (now : Z) :
  0 <= currentSpriteIndex a ->
  exists i, getAnimIndex a now = Ok i /\ 0 <= i.
Proof.
  intros Hidx.
  destruct (getAnimIndex_loop_returns a now (currentSpriteIndex a)
              (sprites_length a - 1) 0) as (v & Hv & Hr); [lia..|].
  exists v. split; [exact Hv|lia].
Qed.

(** The flag [done] is set only on Animations that do not loop. *)
Lemma reachable_done_not_loop (a : Animation) :
  reachable a -> done a = true -> loop a = false.
Proof.
  induction 1 as [lp|a o Hr IH]; [discriminate|].
  destruct o as [|t|d|t t'|i]; simpl; try exact IH; [discriminate|].
  destruct (update_fields a t t') as (-> & _).
  destruct (loop a) eqn:Hl; [|reflexivity].
  destruct (done a) eqn:Hd; [auto|].
  rewrite update_loop_not_done by assumption. discriminate.
Qed.

Lemma apply_op_keeps_done (a : Animation) (o : Op) :
  loop a = false -> done a = true -> o <> OpReset ->
  done (apply_op a o) = true /\ loop (apply_op a o) = false.
Proof.
  intros Hl Hd Ho. destruct o as [|t|d|t t'|i]; simpl.
  - contradiction.
  - auto.
  - auto.
  - split; [apply update_nonloop_keeps_done; assumption|].
    destruct (update_fields a t t') as (-> & _). exact Hl.
  - auto.
Qed.

(** C2 (as amended).  On every Animation obtained from the constructor
    through the public methods, [done] is true only if [loop] is false.
    For a non-looping Animation whose [currentSpriteIndex] is not negative,
    a call of [update] at [now] returns and leaves [done] true exactly when
    it was true already or [now - timestampStart >= totalDurationMs]; it
    does not move [timestampStart].  Once [done] is true it stays true
    under every sequence of operations without [reset]; [reset] clears it
    and puts [currentSpriteIndex] back to 0. *)
Theorem done_latched :
  (forall a, reachable a -> done a = true -> loop a = false) /\
  (forall a now startNow, loop a = false -> 0 <= currentSpriteIndex a ->
     snd (update a now startNow) = Ok tt /\
     (done (fst (update a now startNow)) = true <->
      done a = true \/ totalDurationMs a <= now - timestampStart a) /\
     timestampStart (fst (update a now startNow)) = timestampStart a) /\
  (forall a ops, reachable a -> done a = true ->
     Forall (fun o => o <> OpReset) ops ->
     done (fold_left apply_op ops a) = true) /\
  (forall a, done (reset a) = false /\ currentSpriteIndex (reset a) = 0).
Proof.
  split; [exact reachable_done_not_loop|]. split; [|split].
  - intros a now startNow Hl Hidx. rewrite update_nonloop by exact Hl.
    destruct (getAnimIndex_returns a now Hidx) as (i & -> & _).
    destruct (Z.leb_spec (totalDurationMs a) (now - timestampStart a)); simpl.
    + split; [reflexivity|]. split; [tauto|reflexivity].
    + split; [reflexivity|]. split; [|reflexivity].
      split; [tauto|]. intros [?|?]; [assumption|lia].
  - intros a ops Hr Hd Hops.
    pose proof (reachable_done_not_loop a Hr Hd) as Hl. clear Hr.
    revert a Hd Hl. induction Hops as [|o ops Ho Hops IH]; intros a Hd Hl; [exact Hd|].
    simpl. destruct (apply_op_keeps_done a o Hl Hd Ho) as [Hd' Hl'].
    apply IH; assumption.
  - intros a. split; reflexivity.
Qed.

Lemma done_latched_witness :
  let a := start two_frames 0 in
  loop a = false /\ 0 <= currentSpriteIndex a /\
  snd (update a 160 161) = Ok tt /\ done (fst (update a 160 161)) = true.
Proof.
  intros a.
  assert (Hl : loop a = false) by reflexivity.
  assert (Hidx : 0 <= currentSpriteIndex a) by (vm_compute; discriminate).
  destruct (proj1 (proj2 done_latched) a 160 161 Hl Hidx) as (Hok & Hiff & _).
  split; [exact Hl|]. split; [exact Hidx|]. split; [exact Hok|].
  apply (proj2 Hiff). right. vm_compute. discriminate.
Defined.

(** C2 as stated fails: a new non-looping Animation after
    [setCurrentSprite(-1)], updated at 0 with [timestampStart = 0] and
    [totalDurationMs = 0]: [0 - 0 >= 0], yet the call throws in
    [getAnimIndex] and [done] stays false. *)
Lemma done_not_set_counterexample :
  let a := setCurrentSprite (new_Animation false) (-1) in
  reachable a /\ loop a = false /\
  totalDurationMs a <= 0 - timestampStart a /\
  snd (update a 0 0) = Throw TypeError /\
  done (fst (update a 0 0)) = false.
Proof.
  intros a. split; [exact (reach_op _ (OpSetCurrentSprite (-1)) (reach_new false))|].
  vm_compute. repeat split; discriminate.
Qed.

(** On the last frame, more than the total duration after the origin, a
    looping [update] runs the lookup on the [reset] object with its origin
    at the cycle boundary, or at [now] when a whole cycle was skipped. *)
Lemma rebased_on_last_frame (a : Animation) (now startNow : Z) :
  currentSpriteIndex a = sprites_length a - 1 ->
  totalDurationMs a < now - timestampStart a ->
  rebased a now startNow =
  set_timestampStart (reset a)
    (if now - (timestampStart a + totalDurationMs a) <? totalDurationMs a
     then timestampStart a + totalDurationMs a else startNow).
Proof.
  intros Hlast Helapsed. unfold rebased.
  rewrite (proj2 (Z.eqb_eq _ _) Hlast), (proj2 (Z.ltb_lt _ _) Helapsed).
  destruct (now - (timestampStart a + totalDurationMs a) <? totalDurationMs a);
    reflexivity.
Qed.

(** C3 (as amended).  A looping Animation updated at [now] while on its
    last frame, more than the total duration after [timestampStart]: with
    [newStart = timestampStart + totalDurationMs], the new [timestampStart]
    is [newStart] if [now - newStart < totalDurationMs], and otherwise the
    reading [startNow] that [start()] itself takes from the clock; [done]
    is false afterwards, the call returns, and the new [currentSpriteIndex]
    is the result of the lookup at [now] run on the object after [reset]
    ([done] false, index 0) with the new origin. *)
Theorem update_loop_rebase (a : Animation) (now startNow : Z)
    (Hloop : loop a = true)
    (Hlast : currentSpriteIndex a = sprites_length a - 1)
    (Helapsed : totalDurationMs a < now - timestampStart a) :
  let newStart := timestampStart a + totalDurationMs a in
  let a' := fst (update a now startNow) in
  let origin := if now - newStart <? totalDurationMs a then newStart else startNow in
  (now - newStart < totalDurationMs a -> timestampStart a' = newStart) /\
  (totalDurationMs a <= now - newStart -> timestampStart a' = startNow) /\
  done a' = false /\
  snd (update a now startNow) = Ok tt /\
  done (set_timestampStart (reset a) origin) = false /\
  currentSpriteIndex (set_timestampStart (reset a) origin) = 0 /\
  getAnimIndex (set_timestampStart (reset a) origin) now
    = Ok (currentSpriteIndex a').
Proof.
  intros newStart a' origin. subst a'.
  rewrite update_loop by exact Hloop.
  rewrite (rebased_on_last_frame a now startNow Hlast Helapsed).
  fold newStart. fold origin.
  destruct (getAnimIndex_returns (set_timestampStart (reset a) origin) now)
    as (i & Hi & _); [simpl; lia|].
  rewrite Hi. simpl. unfold origin.
  destruct (Z.ltb_spec (now - newStart) (totalDurationMs a)).
  - split; [reflexivity|]. split; [lia|]. repeat split.
  - split; [lia|]. split; [reflexivity|]. repeat split.
Qed.

Lemma update_loop_rebase_witness :
  loop looping_two_frames = true /\
  currentSpriteIndex looping_two_frames = sprites_length looping_two_frames - 1 /\
  totalDurationMs looping_two_frames < 190 - timestampStart looping_two_frames /\
  timestampStart (fst (update looping_two_frames 190 191)) = 150 /\
  timestampStart (fst (update looping_two_frames 400 401)) = 401.
Proof.
  assert (Hl : loop looping_two_frames = true) by reflexivity.
  assert (Hi : currentSpriteIndex looping_two_frames
               = sprites_length looping_two_frames - 1) by reflexivity.
  assert (He : totalDurationMs looping_two_frames
               < 190 - timestampStart looping_two_frames) by reflexivity.
  assert (He' : totalDurationMs looping_two_frames
                < 400 - timestampStart looping_two_frames) by reflexivity.
  split; [exact Hl|]. split; [exact Hi|]. split; [exact He|]. split.
  - apply (update_loop_rebase looping_two_frames 190 191 Hl Hi He). reflexivity.
  - apply (update_loop_rebase looping_two_frames 400 401 Hl Hi He'). vm_compute. discriminate.
Defined.

(** C3 as stated fails: after a skipped cycle the origin is the reading
    [start()] takes, not the one [update] took: with readings 400 and 401
    the new [timestampStart] is 401. *)
Lemma update_loop_rebase_counterexample :
  loop looping_two_frames = true /\
  currentSpriteIndex looping_two_frames = sprites_length looping_two_frames - 1 /\
  totalDurationMs looping_two_frames < 400 - timestampStart looping_two_frames /\
  totalDurationMs looping_two_frames
    <= 400 - (timestampStart looping_two_frames + totalDurationMs looping_two_frames) /\
  timestampStart (fst (update looping_two_frames 400 401)) <> 400.
Proof. vm_compute. repeat split; discriminate. Qed.

(** At exactly the total duration the test [now - timestampStart >
    totalDurationMs] fails and the origin stays where it is. *)
Lemma update_loop_no_rebase_at_total (a : Animation) (now startNow : Z) :
  loop a = true -> now - timestampStart a <= totalDurationMs a ->
  timestampStart (fst (update a now startNow)) = timestampStart a.
Proof.
  intros Hl Hle. rewrite update_loop by exact Hl.
  assert (rebased a now startNow = a) as ->.
  { unfold rebased. rewrite (proj2 (Z.ltb_ge _ _) Hle).
    destruct (currentSpriteIndex a =? sprites_length a - 1); reflexivity. }
  destruct (getAnimIndex a now); reflexivity.
Qed.

(** ** Looping playback *)

(** The lookup sees only the time elapsed since the origin. *)
Lemma getAnimIndex_loop_shift (a : Animation) (now delta : Z) (l r : Z) :
  forall last,
    getAnimIndex_loop (set_timestampStart a (timestampStart a + delta))
                      (now + delta) l r last
    = getAnimIndex_loop a now l r last.
Proof.
  revert l r.
  apply (search_ind (fun l r => forall last,
    getAnimIndex_loop (set_timestampStart a (timestampStart a + delta))
                      (now + delta) l r last
    = getAnimIndex_loop a now l r last)).
  intros l r IHr IHl last.
  rewrite (getAnimIndex_loop_step a), getAnimIndex_loop_step. simpl sprites.
  destruct (Z.leb_spec l r) as [Hle|Hgt]; [|reflexivity].
  destruct (js_index (sprites a) (midpoint l r)) as [s|]; [|reflexivity].
  assert (Hc : contains_now (set_timestampStart a (timestampStart a + delta))
                            (now + delta) s = contains_now a now s).
  { unfold contains_now, beginTime, endTime. simpl.
    f_equal; [destruct (Z.ltb_spec (now + delta)
                (or_zero (timestampEnd s) + (timestampStart a + delta)));
              destruct (Z.ltb_spec now (or_zero (timestampEnd s) + timestampStart a))
             |destruct (Z.ltb_spec (or_zero (timestampBegin s) + (timestampStart a + delta))
                (now + delta));
              destruct (Z.ltb_spec (or_zero (timestampBegin s) + timestampStart a) now)];
      reflexivity || lia. }
  assert (He : (endTime (set_timestampStart a (timestampStart a + delta)) s
                  <=? now + delta) = (endTime a s <=? now)).
  { unfold endTime. simpl.
    destruct (Z.leb_spec (or_zero (timestampEnd s) + (timestampStart a + delta))
                (now + delta));
      destruct (Z.leb_spec (or_zero (timestampEnd s) + timestampStart a) now);
      reflexivity || lia. }
  rewrite Hc, He.
  destruct (contains_now a now s); [reflexivity|].
  destruct (endTime a s <=? now); auto.
Qed.

Lemma getAnimIndex_shift (a : Animation) (now delta : Z) :
  getAnimIndex (set_timestampStart a (timestampStart a + delta)) (now + delta)
  = getAnimIndex a now.
Proof. unfold getAnimIndex. apply getAnimIndex_loop_shift. Qed.

Lemma run_updates_loop_not_done (ticks : list (Z * Z)) (a : Animation) :
  loop a = true -> done a = false -> done (run_updates a ticks) = false.
Proof.
  unfold run_updates. revert a.
  induction ticks as [|t ticks IH]; intros a Hl Hd; [exact Hd|].
  simpl. apply IH.
  - destruct (update_fields a (fst t) (snd t)) as (-> & _). exact Hl.
  - apply update_loop_not_done; assumption.
Qed.

(** *** Frame offsets *)

Lemma reachable_prefix_sums_ok (a : Animation) : reachable a -> prefix_sums_ok a.
Proof.
  induction 1 as [lp|a o Hr IH]; [apply new_Animation_prefix_sums_ok|].
  destruct o as [|t|d|t t'|i]; simpl; try exact IH.
  - apply addSprite_prefix_sums_ok, IH.
  - destruct (update_fields a t t') as (_ & Hs & Ht).
    unfold prefix_sums_ok. rewrite Hs, Ht. exact IH.
Qed.

Lemma reachable_frame_offsets_ok (a : Animation) :
  reachable a -> frame_offsets_ok (sprites a).
Proof.
  induction 1 as [lp|a o Hr IH].
  - intros i s Hi. simpl in Hi. rewrite lookup_nil in Hi. discriminate.
  - destruct o as [|t|d|t t'|i]; simpl; try exact IH.
    + intros i s Hi. apply lookup_snoc_inv in Hi as [[_ Hi]|[_ ->]];
        [exact (IH _ _ Hi)|]. split; reflexivity.
    + destruct (update_fields a t t') as (_ & -> & _). exact IH.
Qed.

Lemma total_of_take_mono (l : list Z) :
  Forall (fun d => 0 <= d) l ->
  forall i j : nat, (i <= j)%nat -> total_of (take i l) <= total_of (take j l).
Proof.
  induction 1 as [|d l Hd Hl IH]; intros i j Hij.
  - rewrite !take_nil. lia.
  - destruct i as [|i]; destruct j as [|j]; simpl; try lia.
    + assert (0 <= total_of (take j l)); [|unfold total_of in *; lia].
      specialize (IH 0%nat j ltac:(lia)). rewrite take_0 in IH. exact IH.
    + specialize (IH i j ltac:(lia)). unfold total_of in *. lia.
Qed.

Lemma frame_begin_offset (a : Animation) (i : nat) (s : AnimSprite) :
  reachable a -> sprites a !! i = Some s ->
  or_zero (timestampBegin s) = offset_at a i.
Proof.
  intros Hr Hi.
  destruct (reachable_frame_offsets_ok a Hr _ _ Hi) as [-> _].
  destruct (reachable_prefix_sums_ok a Hr) as [_ Hpre].
  simpl. apply Hpre, Hi.
Qed.

Lemma offset_at_S (a : Animation) (i : nat) (s : AnimSprite) :
  sprites a !! i = Some s -> offset_at a (S i) = offset_at a i + duration s.
Proof.
  intros Hi. unfold offset_at.
  rewrite (take_S_r _ _ s Hi), map_app, total_of_app. simpl. lia.
Qed.

Lemma frame_end_offset (a : Animation) (i : nat) (s : AnimSprite) :
  reachable a -> sprites a !! i = Some s ->
  or_zero (timestampEnd s) = offset_at a (S i).
Proof.
  intros Hr Hi. rewrite (offset_at_S a i s Hi).
  destruct (reachable_frame_offsets_ok a Hr _ _ Hi) as [_ ->].
  destruct (reachable_prefix_sums_ok a Hr) as [_ Hpre].
  simpl. rewrite (Hpre _ _ Hi). reflexivity.
Qed.

Lemma offset_at_length (a : Animation) :
  reachable a -> offset_at a (length (sprites a)) = totalDurationMs a.
Proof.
  intros Hr. destruct (reachable_prefix_sums_ok a Hr) as [-> _].
  unfold offset_at. rewrite firstn_all. reflexivity.
Qed.

Lemma offset_at_mono (a : Animation) (gap : Z) (i j : nat) :
  0 <= gap -> Forall (fun s => gap <= duration s) (sprites a) ->
  (i <= j)%nat -> offset_at a i <= offset_at a j.
Proof.
  intros Hg Hd Hij. unfold offset_at. rewrite <- !firstn_map.
  apply total_of_take_mono; [|exact Hij].
  rewrite Forall_map. eapply Forall_impl; [exact Hd|]. simpl. intros. lia.
Qed.

Lemma offset_at_gap (a : Animation) (gap : Z) (i : nat) :
  Forall (fun s => gap <= duration s) (sprites a) ->
  (i < length (sprites a))%nat -> offset_at a i + gap <= offset_at a (S i).
Proof.
  intros Hd Hi.
  destruct (lookup_lt_is_Some_2 (sprites a) i Hi) as [s Hs].
  rewrite (offset_at_S a i s Hs).
  rewrite Forall_forall in Hd.
  assert (gap <= duration s); [|lia].
  apply Hd. apply list_elem_of_lookup. eauto.
Qed.

(** *** A render loop that keeps up *)

Section Tracking.
Variable a0 : Animation.
Variable gap : Z.
Hypothesis Hreach : reachable a0.
Hypothesis Hgap : 0 < gap.
Hypothesis Hdur : Forall (fun s => gap <= duration s) (sprites a0).

Lemma tracking_offsets_mono (i j : nat) :
  (i <= j)%nat -> offset_at a0 i <= offset_at a0 j.
Proof. apply (offset_at_mono a0 gap); [lia|exact Hdur]. Qed.

Lemma tracking_offset_0 : offset_at a0 0 = 0.
Proof. reflexivity. Qed.

Lemma tracking_frame (b : Animation) (now m : Z) :
  sprites b = sprites a0 -> 0 <= m < Z.of_nat (length (sprites a0)) ->
  exists s, js_index (sprites b) m = Some s /\
    (contains_now b now s = true <->
     offset_at a0 (Z.to_nat m) < now - timestampStart b
       < offset_at a0 (S (Z.to_nat m))) /\
    (endTime b s <= now <->
     offset_at a0 (S (Z.to_nat m)) <= now - timestampStart b).
Proof.
  intros Hs Hm. rewrite Hs.
  destruct (js_index_Some (sprites a0) m) as [s Hsm]; [exact Hm|].
  exists s. split; [exact Hsm|].
  pose proof (js_index_lookup _ _ _ Hsm) as Hl.
  rewrite contains_now_spec. unfold beginTime, endTime.
  rewrite (frame_begin_offset a0 _ s Hreach Hl), (frame_end_offset a0 _ s Hreach Hl).
  split; lia.
Qed.

(** On a window that holds the elapsed time between the begin of its first
    frame and the end of its last, the loop returns a frame of the window
    that holds it, ends included. *)
Lemma getAnimIndex_loop_closed (b : Animation) (now : Z) :
  sprites b = sprites a0 ->
  forall l r last, 0 <= l -> r <= Z.of_nat (length (sprites a0)) - 1 ->
    exists v, getAnimIndex_loop b now l r last = Ok v /\
      (r < l -> v = last) /\
      (l <= r ->
       offset_at a0 (Z.to_nat l) <= now - timestampStart b
         <= offset_at a0 (S (Z.to_nat r)) ->
       l <= v <= r /\
       offset_at a0 (Z.to_nat v) <= now - timestampStart b
         <= offset_at a0 (S (Z.to_nat v))).
Proof.
  intros Hs l r. revert l r.
  apply (search_ind (fun l r => forall last, 0 <= l -> r <= Z.of_nat (length (sprites a0)) - 1 ->
    exists v, getAnimIndex_loop b now l r last = Ok v /\
      (r < l -> v = last) /\
      (l <= r ->
       offset_at a0 (Z.to_nat l) <= now - timestampStart b
         <= offset_at a0 (S (Z.to_nat r)) ->
       l <= v <= r /\
       offset_at a0 (Z.to_nat v) <= now - timestampStart b
         <= offset_at a0 (S (Z.to_nat v))))).
  intros l r IHr IHl last Hl Hr. rewrite getAnimIndex_loop_step.
  destruct (Z.leb_spec l r) as [Hle|Hgt].
  2:{ exists last. split; [reflexivity|]. split; [reflexivity|lia]. }
  pose proof (midpoint_bounds l r Hle) as Hm.
  set (m := midpoint l r) in *.
  destruct (tracking_frame b now m Hs) as (s & Hsm & Hc & He); [lia|].
  rewrite Hsm.
  pose proof (tracking_offsets_mono (Z.to_nat m) (S (Z.to_nat m)) ltac:(lia)) as Hmm.
  destruct (contains_now b now s) eqn:Hcs.
  - exists m. split; [reflexivity|]. split; [lia|]. intros _ _.
    split; [lia|]. pose proof (proj1 Hc eq_refl). lia.
  - assert (Hnc : ~ (offset_at a0 (Z.to_nat m) < now - timestampStart b
                       < offset_at a0 (S (Z.to_nat m)))).
    { intros H. apply Hc in H. discriminate. }
    destruct (Z.leb_spec (endTime b s) now) as [Hend|Hend].
    + apply He in Hend.
      destruct (IHr Hle m) as (v & Hv & Hempty & Hfull); [lia..|].
      exists v. split; [exact Hv|]. split; [lia|]. intros _ [Hlo Hhi].
      destruct (Z_lt_le_dec r (m + 1)) as [Hlast|Hmore].
      * rewrite (Hempty Hlast). split; [lia|].
        assert (m = r) as Hmr by lia. rewrite <- Hmr in Hhi. lia.
      * replace (Z.to_nat (m + 1)) with (S (Z.to_nat m)) in Hfull by lia.
        destruct (Hfull Hmore) as [Hvr Hvc]; [lia|]. split; [lia|exact Hvc].
    + assert (Hbefore : now - timestampStart b <= offset_at a0 (Z.to_nat m)).
      { assert (~ offset_at a0 (S (Z.to_nat m)) <= now - timestampStart b)
          by (intros H; apply He in H; lia). lia. }
      destruct (IHl Hle m) as (v & Hv & Hempty & Hfull); [lia..|].
      exists v. split; [exact Hv|]. split; [lia|]. intros _ [Hlo Hhi].
      destruct (Z_lt_le_dec (m - 1) l) as [Hfirst|Hmore].
      * rewrite (Hempty Hfirst). split; [lia|].
        assert (m = l) as Hml by lia. rewrite <- Hml in Hlo. lia.
      * replace (S (Z.to_nat (m - 1))) with (Z.to_nat m) in Hfull by lia.
        destruct (Hfull Hmore) as [Hvr Hvc]; [lia|]. split; [lia|exact Hvc].
Qed.

(** One [update] of a loop that keeps up keeps tracking. *)
Lemma tracking_update (b : Animation) (prev now startNow : Z) :
  tracking a0 b prev -> prev <= now < prev + gap ->
  tracking a0 (fst (update b now startNow)) now.
Proof.
  intros (Hs & Hl & Hd & Ht & (m & Hm & Hts) & He & (c & Hc & Hcn & Hce)) Hnow.
  assert (HD : offset_at a0 (length (sprites a0)) = totalDurationMs a0) by (apply offset_at_length; exact Hreach).
  assert (Hgn : offset_at a0 c + gap <= offset_at a0 (S c))
    by (apply offset_at_gap; [exact Hdur|exact Hcn]).
  assert (Hlen : sprites_length b = Z.of_nat (length (sprites a0)))
    by (unfold sprites_length; rewrite Hs; reflexivity).
  rewrite update_loop by exact Hl. unfold rebased.
  rewrite Hlen, Hc, Ht.
  destruct (Z.eqb_spec (Z.of_nat c) (Z.of_nat (length (sprites a0)) - 1))
    as [Hlast|Hnotlast].
  - destruct (Z.ltb_spec (totalDurationMs a0) (now - timestampStart b))
      as [Hwrap|Hstay].
    + (* the loop wraps, drift-free *)
      assert (Hc_last : S c = length (sprites a0)) by lia.
      rewrite Hc_last, HD in Hce, Hgn.
      pose proof (tracking_offsets_mono 0 c ltac:(lia)) as H0c.
      rewrite tracking_offset_0 in H0c.
      rewrite (proj2 (Z.ltb_lt (now - (timestampStart b + totalDurationMs a0))
                               (totalDurationMs a0))) by lia.
      set (b1 := set_timestampStart (start (reset b) startNow)
                   (timestampStart b + totalDurationMs a0)).
      destruct (getAnimIndex_loop_closed b1 now Hs 0
                  (Z.of_nat (length (sprites a0)) - 1) 0)
        as (v & Hv & _ & Hfull); [lia..|].
      unfold getAnimIndex. change (currentSpriteIndex b1) with 0.
      change (sprites_length b1) with (sprites_length b). rewrite Hlen, Hv.
      change (timestampStart b1) with (timestampStart b + totalDurationMs a0) in Hfull.
      destruct Hfull as [Hvr Hvc]; [lia| |].
      { change (Z.to_nat 0) with 0%nat. rewrite tracking_offset_0.
        replace (S (Z.to_nat (Z.of_nat (length (sprites a0)) - 1)))
          with (length (sprites a0)) by lia. lia. }
      refine (conj Hs (conj Hl (conj eq_refl (conj Ht (conj _ (conj _ _)))))); simpl.
      * exists (m + 1). split; [lia|]. lia.
      * lia.
      * exists (Z.to_nat v). split; [lia|]. split; [lia|exact Hvc].
    + (* on the last frame, the cycle not yet over *)
      assert (Hc_last : S c = length (sprites a0)) by lia.
      rewrite Hc_last, HD in Hce.
      destruct (getAnimIndex_loop_closed b now Hs (Z.of_nat c)
                  (Z.of_nat (length (sprites a0)) - 1) 0)
        as (v & Hv & _ & Hfull); [lia..|].
      unfold getAnimIndex. rewrite Hlen, Hc, Hv.
      destruct Hfull as [Hvr Hvc]; [lia| |].
      { rewrite Nat2Z.id.
        replace (S (Z.to_nat (Z.of_nat (length (sprites a0)) - 1)))
          with (length (sprites a0)) by lia. lia. }
      refine (conj Hs (conj Hl (conj Hd (conj Ht (conj _ (conj _ _)))))); simpl.
      * exists m. split; assumption.
      * lia.
      * exists (Z.to_nat v). split; [lia|]. split; [lia|exact Hvc].
  - (* not on the last frame: the next frame is at least [gap] long *)
    assert (Hnext : offset_at a0 (S c) + gap <= offset_at a0 (S (S c)))
      by (apply offset_at_gap; [exact Hdur|lia]).
    pose proof (tracking_offsets_mono (S (S c)) (length (sprites a0)) ltac:(lia))
      as Htop.
    destruct (getAnimIndex_loop_closed b now Hs (Z.of_nat c)
                (Z.of_nat (length (sprites a0)) - 1) 0)
      as (v & Hv & _ & Hfull); [lia..|].
    unfold getAnimIndex. rewrite Hlen, Hc, Hv.
    destruct Hfull as [Hvr Hvc]; [lia| |].
    { rewrite Nat2Z.id.
      replace (S (Z.to_nat (Z.of_nat (length (sprites a0)) - 1)))
        with (length (sprites a0)) by lia. lia. }
    refine (conj Hs (conj Hl (conj Hd (conj Ht (conj _ (conj _ _)))))); simpl.
    * exists m. split; assumption.
    * lia.
    * exists (Z.to_nat v). split; [lia|]. split; [lia|exact Hvc].
Qed.

Lemma tracking_run (ticks : list (Z * Z)) :
  forall b prev, tracking a0 b prev -> dense gap prev ticks ->
    tracking a0 (run_updates b ticks) (last_reading prev ticks).
Proof.
  induction ticks as [|t ticks IH]; intros b prev Hb Hd; [exact Hb|].
  destruct Hd as [Ht Hrest].
  change (run_updates b (t :: ticks))
    with (run_updates (fst (update b (fst t) (snd t))) ticks).
  change (last_reading prev (t :: ticks)) with (last_reading (fst t) ticks).
  apply IH; [|exact Hrest].
  apply (tracking_update b prev); assumption.
Qed.

(** A tracking Animation is on the frame that holds the position of the
    clock in the cycle, when that position is strictly inside a frame. *)
Lemma tracking_index (b : Animation) (now j : Z) (sj : AnimSprite) :
  tracking a0 b now ->
  js_index (sprites a0) j = Some sj ->
  or_zero (timestampBegin sj) < (now - timestampStart a0) mod totalDurationMs a0
    < or_zero (timestampEnd sj) ->
  currentSpriteIndex b = j.
Proof.
  intros (Hs & Hl & Hd & Ht & (m & Hm & Hts) & He & (c & Hc & Hcn & Hce)) Hj Hin.
  pose proof (js_index_inv _ _ _ Hj) as Hjr.
  pose proof (js_index_lookup _ _ _ Hj) as Hjl.
  rewrite (frame_begin_offset a0 _ sj Hreach Hjl),
          (frame_end_offset a0 _ sj Hreach Hjl) in Hin.
  pose proof (tracking_offsets_mono 0 (Z.to_nat j) ltac:(lia)) as H0j.
  rewrite tracking_offset_0 in H0j.
  assert (Hmod : (now - timestampStart a0) mod totalDurationMs a0
                 = (now - timestampStart b) mod totalDurationMs a0).
  { replace (now - timestampStart a0)
      with (now - timestampStart b + m * totalDurationMs a0) by lia.
    apply Z_mod_plus_full. }
  rewrite Hmod in Hin.
  assert (Hlt : now - timestampStart b < totalDurationMs a0).
  { destruct (Z.eq_dec (now - timestampStart b) (totalDurationMs a0)) as [Heq|Hne];
      [|lia].
    rewrite Heq, Z_mod_same_full in Hin. lia. }
  rewrite Z.mod_small in Hin by lia.
  rewrite Hc.
  destruct (lt_eq_lt_dec c (Z.to_nat j)) as [[Hlt'|Heq]|Hgt].
  - pose proof (tracking_offsets_mono (S c) (Z.to_nat j) ltac:(lia)). lia.
  - lia.
  - pose proof (tracking_offsets_mono (S (Z.to_nat j)) c ltac:(lia)). lia.
Qed.
End Tracking.

Lemma dense_app (gap prev : Z) (l1 l2 : list (Z * Z)) :
  dense gap prev (l1 ++ l2) <->
  dense gap prev l1 /\ dense gap (last_reading prev l1) l2.
Proof.
  revert prev. induction l1 as [|t l1 IH]; intros prev; simpl.
  - unfold last_reading. simpl. tauto.
  - change (last_reading prev (t :: l1)) with (last_reading (fst t) l1).
    rewrite IH. tauto.
Qed.

Lemma last_reading_snoc (prev : Z) (l : list (Z * Z)) (t : Z * Z) :
  last_reading prev (l ++ [t]) = fst t.
Proof. unfold last_reading. rewrite fold_left_app. reflexivity. Qed.

Lemma tracking_start (a : Animation) (gap : Z) :
  reachable a -> loop a = true -> currentSpriteIndex a = 0 ->
  sprites a <> [] -> 0 < gap ->
  Forall (fun s => gap <= duration s) (sprites a) ->
  tracking a a (timestampStart a).
Proof.
  intros Hr Hl Hc Hne Hg Hd.
  assert (Hn : (0 < length (sprites a))%nat)
    by (destruct (sprites a); [contradiction|simpl; lia]).
  pose proof (offset_at_gap a gap 0 Hd Hn) as H1.
  pose proof (offset_at_mono a gap 1 (length (sprites a)) ltac:(lia) Hd ltac:(lia)) as H2.
  rewrite (offset_at_length a Hr) in H2.
  change (offset_at a 0) with 0 in H1.
  refine (conj eq_refl (conj Hl (conj _ (conj eq_refl (conj _ (conj _ _)))))).
  - destruct (done a) eqn:Hdone; [|reflexivity].
    rewrite (reachable_done_not_loop a Hr Hdone) in Hl. discriminate.
  - exists 0. split; lia.
  - lia.
  - exists 0%nat. split; [exact Hc|]. split; [exact Hn|].
    change (offset_at a 0) with 0. lia.
Qed.

(** C9 (as amended).  A looping Animation built through the public methods,
    on its first frame, whose frames all last at least [gap > 0], driven by
    a render loop that keeps up: the first [update] reads the clock at or
    after [timestampStart] and each [update] reads it at or after the
    previous reading, less than [gap] later.  If the [update] at [t] falls
    strictly inside frame [j] of its cycle (not on a frame boundary) then
    [currentSpriteIndex] is [j] after that [update] and again after the
    [update] at [t + k * D], [D] the total duration; and [isDone()] is false
    after every sequence of [update] calls. *)
Theorem looping_playback_periodic (a : Animation) (gap t k r1 r2 j : Z)
    (before between : list (Z * Z)) (sj : AnimSprite)
    (Hreach : reachable a) (Hloop : loop a = true)
    (Hfirst : currentSpriteIndex a = 0)
    (Hgap : 0 < gap)
    (Hdur : Forall (fun s => gap <= duration s) (sprites a))
    (Hdense : dense gap (timestampStart a)
                (before ++ [(t, r1)] ++ between
                        ++ [(t + k * totalDurationMs a, r2)]))
    (Hj : js_index (sprites a) j = Some sj)
    (Hin : or_zero (timestampBegin sj)
             < (t - timestampStart a) mod totalDurationMs a
             < or_zero (timestampEnd sj)) :
  currentSpriteIndex (run_updates a (before ++ [(t, r1)])) = j /\
  currentSpriteIndex
    (run_updates a (before ++ [(t, r1)] ++ between
                           ++ [(t + k * totalDurationMs a, r2)])) = j /\
  (forall ticks, isDone (run_updates a ticks) = false).
Proof.
  assert (Hne : sprites a <> []).
  { intros He. rewrite He in Hj. unfold js_index in Hj.
    destruct (j <? 0); [discriminate|]. rewrite lookup_nil in Hj. discriminate. }
  pose proof (tracking_start a gap Hreach Hloop Hfirst Hne Hgap Hdur) as H0.
  split; [|split].
  - rewrite app_assoc in Hdense. apply dense_app in Hdense as [Hd1 _].
    pose proof (tracking_run a gap Hreach Hgap Hdur _ _ _ H0 Hd1) as Htr.
    rewrite last_reading_snoc in Htr.
    exact (tracking_index a gap Hreach Hgap Hdur _ _ _ _ Htr Hj Hin).
  - rewrite !app_assoc in Hdense.
    pose proof (tracking_run a gap Hreach Hgap Hdur _ _ _ H0 Hdense) as Htr.
    rewrite last_reading_snoc in Htr. rewrite !app_assoc.
    apply (tracking_index a gap Hreach Hgap Hdur _ _ _ _ Htr Hj).
    replace (fst (t + k * totalDurationMs a, r2) - timestampStart a)
      with (t - timestampStart a + k * totalDurationMs a) by (simpl; lia).
    rewrite Z_mod_plus_full. exact Hin.
  - intros ticks. apply run_updates_loop_not_done; [exact Hloop|].
    destruct (done a) eqn:Hd; [|reflexivity].
    rewrite (reachable_done_not_loop a Hreach Hd) in Hloop. discriminate.
Qed.

Lemma looping_two_frames_reachable : reachable looping_two_frames.
Proof.
  exact (reach_op _ (OpSetCurrentSprite 1)
          (reach_op _ (OpStart 0)
            (reach_op _ (OpAddSprite (frame "b" 50))
              (reach_op _ (OpAddSprite (frame "a" 100)) (reach_new true))))).
Qed.

Lemma started_loop_reachable : reachable started_loop.
Proof.
  exact (reach_op _ (OpStart 0)
          (reach_op _ (OpAddSprite (frame "b" 50))
            (reach_op _ (OpAddSprite (frame "a" 100)) (reach_new true)))).
Qed.

Lemma looping_playback_periodic_witness :
  currentSpriteIndex (run_updates started_loop [(40, 41)]) = 0 /\
  currentSpriteIndex
    (run_updates started_loop
       [(40, 41); (80, 81); (120, 121); (160, 161); (190, 191)]) = 0.
Proof.
  destruct (js_index (sprites started_loop) 0) as [sj|] eqn:Hj; [|discriminate Hj].
  assert (Hdur : Forall (fun s => 50 <= duration s) (sprites started_loop))
    by (repeat constructor; vm_compute; discriminate).
  assert (Hdense : dense 50 (timestampStart started_loop)
            ([] ++ [(40, 41)] ++ [(80, 81); (120, 121); (160, 161)]
                ++ [(40 + 1 * totalDurationMs started_loop, 191)])).
  { vm_compute. repeat split; discriminate. }
  assert (Hin : or_zero (timestampBegin sj)
                  < (40 - timestampStart started_loop) mod totalDurationMs started_loop
                  < or_zero (timestampEnd sj)).
  { vm_compute in Hj. injection Hj as <-. vm_compute. split; reflexivity. }
  destruct (looping_playback_periodic started_loop 50 40 1 41 191 0 [] _ sj
              started_loop_reachable eq_refl eq_refl ltac:(lia) Hdur Hdense Hj Hin)
    as (H1 & H2 & _).
  split; [exact H1|exact H2].
Defined.

(** C9 as stated fails.  A looping Animation of total duration 150 updated
    at 40 and then at [40 + 1 * 150] is on frame 0 the first time and on
    frame 1 the second: [update] wraps only when it is called on the last
    frame.  And even when the render loop keeps up, a reading on a frame
    boundary need not come back to the same frame: updated at 0 the
    Animation is on frame 0; at [0 + 1 * 150], the end of the last frame,
    it is on frame 1.  Nor does an Animation that starts on a later frame
    come back to it: after [setCurrentSprite(1)] the update at 40 stays on
    frame 1, the one at [40 + 1 * 150] is on frame 0. *)
Lemma looping_periodicity_counterexample :
  loop started_loop = true /\ totalDurationMs started_loop = 150 /\
  currentSpriteIndex (run_updates started_loop [(40, 40)]) = 0 /\
  currentSpriteIndex (run_updates started_loop [(40, 40); (40 + 1 * 150, 190)]) = 1 /\
  currentSpriteIndex (run_updates started_loop [(40, 40)])
    <> currentSpriteIndex
         (run_updates started_loop [(40, 40); (40 + 1 * 150, 190)]) /\
  currentSpriteIndex (run_updates started_loop [(0, 0)]) = 0 /\
  currentSpriteIndex
    (run_updates started_loop
       [(0, 0); (40, 40); (80, 80); (120, 120); (0 + 1 * 150, 150)]) = 1 /\
  currentSpriteIndex (run_updates (setCurrentSprite started_loop 1) [(40, 40)]) = 1 /\
  currentSpriteIndex
    (run_updates (setCurrentSprite started_loop 1)
       [(40, 40); (80, 80); (120, 120); (160, 160); (40 + 1 * 150, 190)]) = 0.
Proof. vm_compute. repeat split; discriminate. Qed.

(** The scenario of one looping frame of 100: two cycles and 10 later the
    index is 0 and the Animation is not done. *)
Example single_frame_loop_scenario :
  let a := start (build true [frame "a" 100]) 0 in
  currentSpriteIndex (run_updates a [(50, 50); (110, 110); (160, 160); (210, 210)]) = 0 /\
  isDone (run_updates a [(50, 50); (110, 110); (160, 160); (210, 210)]) = false.
Proof. vm_compute. split; reflexivity. Qed.

(** The scenario of two frames, 100 and 50, not looping. *)
Example two_frames_scenario :
  let a0 := start two_frames 0 in
  totalDurationMs a0 = 150 /\
  getSpriteName (run_updates a0 [(40, 40)]) None = Some "a" /\
  getSpriteName (run_updates a0 [(40, 40); (120, 120)]) None = Some "b" /\
  isDone (run_updates a0 [(40, 40); (120, 120)]) = false /\
  isDone (run_updates a0 [(40, 40); (120, 120); (160, 160)]) = true.
Proof. vm_compute. repeat split; reflexivity. Qed.

(** ** The empty Animation *)

Lemma getAnimIndex_empty (a : Animation) (now : Z) :
  sprites a = [] ->
  getAnimIndex a now = (if currentSpriteIndex a <? 0 then Throw TypeError else Ok 0) /\
  visited a now = (if currentSpriteIndex a <? 0
                   then [midpoint (currentSpriteIndex a) (-1)] else []).
Proof.
  intros He. unfold getAnimIndex, visited, sprites_length. rewrite He.
  change (Z.of_nat (length (@nil AnimSprite)) - 1) with (-1).
  rewrite getAnimIndex_loop_step, visited_loop_step, He.
  destruct (Z.ltb_spec (currentSpriteIndex a) 0) as [Hneg|Hpos].
  - rewrite (proj2 (Z.leb_le (currentSpriteIndex a) (-1))) by lia.
    rewrite js_index_None; [split; reflexivity|].
    left. pose proof (midpoint_bounds (currentSpriteIndex a) (-1)). lia.
  - rewrite (proj2 (Z.leb_gt (currentSpriteIndex a) (-1))) by lia.
    split; reflexivity.
Qed.

(** C10 (as amended).  For an Animation with no frames whose
    [currentSpriteIndex] is not negative: [getAnimIndex] returns 0 at every
    [timestampNow] and reads no frame; [update] returns, and on a
    non-looping instance sets [done] at the first call with
    [now >= timestampStart] (the total is 0); [getSpriteName()] is
    [undefined]. *)
Theorem empty_animation_total (a : Animation) (now startNow : Z)
    (Hreach : reachable a) (Hempty : sprites a = [])
    (Hidx : 0 <= currentSpriteIndex a) :
  getAnimIndex a now = Ok 0 /\
  visited a now = [] /\
  snd (update a now startNow) = Ok tt /\
  totalDurationMs a = 0 /\
  (loop a = false -> timestampStart a <= now -> done (fst (update a now startNow)) = true) /\
  getSpriteName a None = None.
Proof.
  destruct (getAnimIndex_empty a now Hempty) as [Hg Hv].
  rewrite (proj2 (Z.ltb_ge _ _) Hidx) in Hg, Hv.
  assert (Ht : totalDurationMs a = 0).
  { destruct (reachable_prefix_sums_ok a Hreach) as [-> _]. rewrite Hempty. reflexivity. }
  split; [exact Hg|]. split; [exact Hv|]. split; [|split; [exact Ht|split]].
  - destruct (loop a) eqn:Hl.
    + rewrite update_loop by exact Hl.
      destruct (getAnimIndex_returns (rebased a now startNow) now) as (i & -> & _); [|reflexivity].
      unfold rebased.
      destruct (currentSpriteIndex a =? sprites_length a - 1); [|exact Hidx].
      destruct (totalDurationMs a <? now - timestampStart a); [|exact Hidx].
      destruct (now - (timestampStart a + totalDurationMs a) <? totalDurationMs a);
        simpl; lia.
    + rewrite update_nonloop, Hg by exact Hl.
      destruct (totalDurationMs a <=? now - timestampStart a); reflexivity.
  - intros Hl Hnow. rewrite update_nonloop, Hg by exact Hl.
    rewrite (proj2 (Z.leb_le _ _)) by lia. reflexivity.
  - unfold getSpriteName. rewrite Hempty. unfold js_index.
    destruct (currentSpriteIndex a <? 0); reflexivity.
Qed.

Lemma empty_animation_total_witness :
  reachable (new_Animation false) /\ sprites (new_Animation false) = [] /\
  0 <= currentSpriteIndex (new_Animation false) /\
  getAnimIndex (new_Animation false) 7 = Ok 0 /\
  done (fst (update (new_Animation false) 7 8)) = true.
Proof.
  pose proof (reach_new false) as Hr.
  assert (Hi : 0 <= currentSpriteIndex (new_Animation false)) by (simpl; lia).
  destruct (empty_animation_total (new_Animation false) 7 8 Hr eq_refl Hi)
    as (Hg & _ & _ & _ & Hd & _).
  split; [exact Hr|]. split; [reflexivity|]. split; [exact Hi|].
  split; [exact Hg|]. apply Hd; [reflexivity|simpl; lia].
Defined.

(** C10 as stated fails: after [setCurrentSprite(-1)] on a new Animation
    the sequence is still empty, and both [getAnimIndex] and [update] read
    [sprites[-1]] and throw; [done] is not set. *)
Lemma empty_animation_negative_index_counterexample :
  let a := setCurrentSprite (new_Animation false) (-1) in
  reachable a /\ sprites a = [] /\
  getAnimIndex a 0 = Throw TypeError /\
  visited a 0 = [-1] /\
  snd (update a 0 0) = Throw TypeError /\
  done (fst (update a 0 0)) = false.
Proof.
  intros a. split; [exact (reach_op _ (OpSetCurrentSprite (-1)) (reach_new false))|].
  vm_compute. repeat split; reflexivity.
Qed.

(** * Further properties of the timeline engine *)

(** ** What the search finds *)

Section SearchCorrect.
Variable a : Animation.
Variable now : Z.

(** On frames laid end to end the loop finds the frame that holds [now]
    whenever that frame is inside the window. *)
Lemma getAnimIndex_loop_finds (j : Z) (sj : AnimSprite) :
  sequential (sprites a) ->
  js_index (sprites a) j = Some sj ->
  contains_now a now sj = true ->
  forall l r last, 0 <= l -> l <= j <= r -> r <= sprites_length a - 1 ->
    getAnimIndex_loop a now l r last = Ok j.
Proof.
  intros [Hbe Hord] Hj Hc. apply contains_now_spec in Hc.
  unfold beginTime, endTime in Hc.
  pose proof (js_index_inv _ _ _ Hj) as Hjr.
  pose proof (js_index_lookup _ _ _ Hj) as Hjl.
  intros l r. revert l r.
  apply (search_ind (fun l r => forall last, 0 <= l -> l <= j <= r ->
    r <= sprites_length a - 1 -> getAnimIndex_loop a now l r last = Ok j)).
  intros l r IHr IHl last Hl Hlj Hr.
  assert (Hle : l <= r) by lia.
  pose proof (midpoint_bounds l r Hle) as Hm.
  rewrite getAnimIndex_loop_step, (proj2 (Z.leb_le l r) Hle).
  destruct (js_index_Some (sprites a) (midpoint l r)) as [s Hs];
    [unfold sprites_length in Hr; lia|].
  rewrite Hs. pose proof (js_index_lookup _ _ _ Hs) as Hsl.
  pose proof (Hbe _ _ Hsl) as Hs_be.
  destruct (Z.lt_trichotomy (midpoint l r) j) as [Hlt|[Heq|Hgt]].
  - assert (Hends : or_zero (timestampEnd s) <= or_zero (timestampBegin sj)).
    { apply (Hord (Z.to_nat (midpoint l r)) (Z.to_nat j)); [lia|assumption..]. }
    assert (contains_now a now s = false) as ->.
    { apply not_true_is_false. rewrite contains_now_spec.
      unfold beginTime, endTime. lia. }
    assert ((endTime a s <=? now) = true) as ->.
    { apply Z.leb_le. unfold endTime. lia. }
    apply (IHr Hle); lia.
  - rewrite Heq in Hs. rewrite Hs in Hj. injection Hj as ->.
    rewrite (proj2 (contains_now_spec a now sj)), Heq; [reflexivity|].
    unfold beginTime, endTime. exact Hc.
  - assert (Hends : or_zero (timestampEnd sj) <= or_zero (timestampBegin s)).
    { apply (Hord (Z.to_nat j) (Z.to_nat (midpoint l r))); [lia|assumption..]. }
    assert (contains_now a now s = false) as ->.
    { apply not_true_is_false. rewrite contains_now_spec.
      unfold beginTime, endTime. lia. }
    assert ((endTime a s <=? now) = false) as ->.
    { apply Z.leb_gt. unfold endTime. lia. }
    apply (IHl Hle); lia.
Qed.

(** When every frame of the window has ended the loop ends on the right
    bound. *)
Lemma getAnimIndex_loop_all_ended (l r : Z) :
  forall last, 0 <= l -> r <= sprites_length a - 1 ->
    (forall m s, l <= m <= r -> js_index (sprites a) m = Some s ->
       endTime a s <= now) ->
    getAnimIndex_loop a now l r last = Ok (if l <=? r then r else last).
Proof.
  revert l r.
  apply (search_ind (fun l r => forall last, 0 <= l -> r <= sprites_length a - 1 ->
    (forall m s, l <= m <= r -> js_index (sprites a) m = Some s ->
       endTime a s <= now) ->
    getAnimIndex_loop a now l r last = Ok (if l <=? r then r else last))).
  intros l r IHr IHl last Hl Hr Hall.
  rewrite getAnimIndex_loop_step.
  destruct (Z.leb_spec l r) as [Hle|Hgt]; [|reflexivity].
  pose proof (midpoint_bounds l r Hle) as Hm.
  destruct (js_index_Some (sprites a) (midpoint l r)) as [s Hs];
    [unfold sprites_length in Hr; lia|].
  rewrite Hs. pose proof (Hall _ _ Hm Hs) as Hend.
  assert (contains_now a now s = false) as ->.
  { apply not_true_is_false. rewrite contains_now_spec. lia. }
  rewrite (proj2 (Z.leb_le _ _) Hend).
  rewrite (IHr Hle) by (try lia; intros m' s' Hm'; apply Hall; lia).
  destruct (Z.leb_spec (midpoint l r + 1) r); f_equal; lia.
Qed.

(** When no frame of the window has begun the loop ends on the left
    bound. *)
Lemma getAnimIndex_loop_none_begun (l r : Z) :
  forall last, 0 <= l -> r <= sprites_length a - 1 ->
    (forall m s, l <= m <= r -> js_index (sprites a) m = Some s ->
       now <= beginTime a s /\ now < endTime a s) ->
    getAnimIndex_loop a now l r last = Ok (if l <=? r then l else last).
Proof.
  revert l r.
  apply (search_ind (fun l r => forall last, 0 <= l -> r <= sprites_length a - 1 ->
    (forall m s, l <= m <= r -> js_index (sprites a) m = Some s ->
       now <= beginTime a s /\ now < endTime a s) ->
    getAnimIndex_loop a now l r last = Ok (if l <=? r then l else last))).
  intros l r IHr IHl last Hl Hr Hall.
  rewrite getAnimIndex_loop_step.
  destruct (Z.leb_spec l r) as [Hle|Hgt]; [|reflexivity].
  pose proof (midpoint_bounds l r Hle) as Hm.
  destruct (js_index_Some (sprites a) (midpoint l r)) as [s Hs];
    [unfold sprites_length in Hr; lia|].
  rewrite Hs. destruct (Hall _ _ Hm Hs) as [Hb He].
  assert (contains_now a now s = false) as ->.
  { apply not_true_is_false. rewrite contains_now_spec. lia. }
  rewrite (proj2 (Z.leb_gt _ _) He).
  rewrite (IHl Hle) by (try lia; intros m' s' Hm'; apply Hall; lia).
  destruct (Z.leb_spec l (midpoint l r - 1)); f_equal; lia.
Qed.
End SearchCorrect.

(** X1.  On frames laid end to end, if [timestampNow] lies strictly inside
    frame [j] and [j] is not before [currentSpriteIndex], [getAnimIndex]
    returns [j]. *)
Theorem getAnimIndex_finds_frame (a : Animation) (timestampNow j : Z) (sj : AnimSprite)
    (Hseq : sequential (sprites a))
    (Hidx : 0 <= currentSpriteIndex a <= j)
    (Hj : js_index (sprites a) j = Some sj)
    (Hin : or_zero (timestampBegin sj) + timestampStart a < timestampNow
             < or_zero (timestampEnd sj) + timestampStart a) :
  getAnimIndex a timestampNow = Ok j.
Proof.
  pose proof (js_index_inv _ _ _ Hj) as Hjr.
  apply (getAnimIndex_loop_finds a timestampNow j sj Hseq Hj).
  - apply contains_now_spec. exact Hin.
  - lia.
  - unfold sprites_length. lia.
  - lia.
Qed.

(** X2.  With [0 <= currentSpriteIndex <= length - 1], a [timestampNow] at or
    after the end of every frame from [currentSpriteIndex] on gives the last
    index. *)
Theorem getAnimIndex_past_the_end (a : Animation) (timestampNow : Z)
    (Hidx : 0 <= currentSpriteIndex a <= sprites_length a - 1)
    (Hended : forall m s, currentSpriteIndex a <= m ->
                js_index (sprites a) m = Some s ->
                or_zero (timestampEnd s) + timestampStart a <= timestampNow) :
  getAnimIndex a timestampNow = Ok (sprites_length a - 1).
Proof.
  unfold getAnimIndex.
  rewrite getAnimIndex_loop_all_ended; [| lia | lia |].
  - rewrite (proj2 (Z.leb_le _ _)) by lia. reflexivity.
  - intros m s Hm Hs. apply (Hended m s); [lia|exact Hs].
Qed.

(** X3.  With [0 <= currentSpriteIndex <= length - 1], a [timestampNow] that
    is not after the begin and is before the end of every frame from
    [currentSpriteIndex] on leaves the index where it is: the search never
    goes back to an earlier frame. *)
Theorem getAnimIndex_before_window (a : Animation) (timestampNow : Z)
    (Hidx : 0 <= currentSpriteIndex a <= sprites_length a - 1)
    (Hnot : forall m s, currentSpriteIndex a <= m ->
              js_index (sprites a) m = Some s ->
              timestampNow <= or_zero (timestampBegin s) + timestampStart a /\
              timestampNow < or_zero (timestampEnd s) + timestampStart a) :
  getAnimIndex a timestampNow = Ok (currentSpriteIndex a).
Proof.
  unfold getAnimIndex.
  rewrite getAnimIndex_loop_none_begun; [| lia | lia |].
  - rewrite (proj2 (Z.leb_le _ _)) by lia. reflexivity.
  - intros m s Hm Hs. apply (Hnot m s); [lia|exact Hs].
Qed.

Lemma two_frames_sequential : sequential (sprites two_frames).
Proof.
  apply build_sequential. repeat constructor; vm_compute; discriminate.
Qed.

Lemma two_frames_index (m : Z) (s : AnimSprite) :
  js_index (sprites two_frames) m = Some s ->
  (m = 0 /\ or_zero (timestampBegin s) = 0 /\ or_zero (timestampEnd s) = 100) \/
  (m = 1 /\ or_zero (timestampBegin s) = 100 /\ or_zero (timestampEnd s) = 150).
Proof.
  intros Hs. pose proof (js_index_inv _ _ _ Hs) as Hr.
  assert (Hm : m = 0 \/ m = 1) by (cbn in Hr; lia).
  destruct Hm as [-> | ->]; vm_compute in Hs; injection Hs as <-; auto.
Qed.

Lemma getAnimIndex_finds_frame_witness :
  exists sj, js_index (sprites two_frames) 1 = Some sj /\
             getAnimIndex two_frames 120 = Ok 1.
Proof.
  destruct (js_index (sprites two_frames) 1) as [sj|] eqn:Hj; [|discriminate Hj].
  exists sj. split; [reflexivity|].
  apply (getAnimIndex_finds_frame two_frames 120 1 sj two_frames_sequential).
  - vm_compute. split; discriminate.
  - exact Hj.
  - vm_compute in Hj. injection Hj as <-. vm_compute. split; reflexivity.
Defined.

Lemma getAnimIndex_past_the_end_witness :
  0 <= currentSpriteIndex two_frames <= sprites_length two_frames - 1 /\
  getAnimIndex two_frames 150 = Ok 1.
Proof.
  assert (Hidx : 0 <= currentSpriteIndex two_frames <= sprites_length two_frames - 1)
    by (vm_compute; split; discriminate).
  split; [exact Hidx|].
  apply (getAnimIndex_past_the_end two_frames 150 Hidx).
  intros m s _ Hs.
  destruct (two_frames_index m s Hs) as [(_ & _ & ->)|(_ & _ & ->)];
    vm_compute; discriminate.
Defined.

Lemma getAnimIndex_before_window_witness :
  getAnimIndex (setCurrentSprite two_frames 1) 50 = Ok 1.
Proof.
  apply (getAnimIndex_before_window (setCurrentSprite two_frames 1) 50).
  - vm_compute. split; discriminate.
  - intros m s Hm Hs. change (sprites (setCurrentSprite two_frames 1))
      with (sprites two_frames) in Hs.
    change (currentSpriteIndex (setCurrentSprite two_frames 1)) with 1 in Hm.
    destruct (two_frames_index m s Hs) as [(-> & _)|(_ & -> & ->)]; [lia|].
    vm_compute. split; [discriminate|reflexivity].
Defined.

(** ** What [update] keeps *)

(** X4.  [update] never changes the name, the [loop] flag, the frames, the
    total duration or [timestampPause]; on a non-looping Animation it never
    moves [timestampStart]; when the total is not negative and the clock
    does not run backwards ([timestampStart <= now <= startNow], the second
    reading being the one [start()] takes), the origin never moves back and
    never moves past the second reading. *)
Theorem update_keeps (a : Animation) (now startNow : Z) :
  name (fst (update a now startNow)) = name a /\
  loop (fst (update a now startNow)) = loop a /\
  sprites (fst (update a now startNow)) = sprites a /\
  totalDurationMs (fst (update a now startNow)) = totalDurationMs a /\
  timestampPause (fst (update a now startNow)) = timestampPause a /\
  (loop a = false ->
     timestampStart (fst (update a now startNow)) = timestampStart a) /\
  (0 <= totalDurationMs a -> timestampStart a <= now <= startNow ->
     timestampStart a <= timestampStart (fst (update a now startNow)) <= startNow).
Proof.
  destruct (loop a) eqn:Hl.
  - rewrite update_loop by exact Hl.
    assert (Hreb : name (rebased a now startNow) = name a /\
                   loop (rebased a now startNow) = true /\
                   sprites (rebased a now startNow) = sprites a /\
                   totalDurationMs (rebased a now startNow) = totalDurationMs a /\
                   timestampPause (rebased a now startNow) = timestampPause a /\
                   (0 <= totalDurationMs a -> timestampStart a <= now <= startNow ->
                    timestampStart a <= timestampStart (rebased a now startNow)
                      <= startNow)).
    { unfold rebased.
      destruct (currentSpriteIndex a =? sprites_length a - 1);
        [destruct (Z.ltb_spec (totalDurationMs a) (now - timestampStart a));
         [destruct (now - (timestampStart a + totalDurationMs a) <? totalDurationMs a)|]|];
        simpl; repeat split; auto; lia. }
    destruct Hreb as (Hn & Hlp & Hsp & Htot & Hp & Hts).
    destruct (getAnimIndex (rebased a now startNow) now); simpl;
      (split; [exact Hn|]); (split; [exact Hlp|]); (split; [exact Hsp|]);
      (split; [exact Htot|]); (split; [exact Hp|]);
      (split; [discriminate|exact Hts]).
  - rewrite update_nonloop by exact Hl.
    destruct (getAnimIndex a now);
      [destruct (totalDurationMs a <=? now - timestampStart a)|];
      simpl; repeat split; auto; lia.
Qed.

Lemma update_keeps_witness :
  0 <= totalDurationMs looping_two_frames /\
  timestampStart looping_two_frames <= 400 <= 401 /\
  timestampStart looping_two_frames
    <= timestampStart (fst (update looping_two_frames 400 401)) <= 401.
Proof.
  assert (Ht : 0 <= totalDurationMs looping_two_frames) by (vm_compute; discriminate).
  assert (Hn : timestampStart looping_two_frames <= 400 <= 401)
    by (vm_compute; split; discriminate).
  split; [exact Ht|]. split; [exact Hn|].
  destruct (update_keeps looping_two_frames 400 401) as (_ & _ & _ & _ & _ & _ & H).
  exact (H Ht Hn).
Defined.

Lemma getAnimIndex_from_index (a : Animation) (now : Z) :
  0 <= currentSpriteIndex a ->
  exists v, getAnimIndex a now = Ok v /\
    ((currentSpriteIndex a <= sprites_length a - 1 /\
      currentSpriteIndex a <= v <= sprites_length a - 1) \/
     (sprites_length a - 1 < currentSpriteIndex a /\ v = 0)).
Proof.
  intros Hidx. apply getAnimIndex_loop_returns; lia.
Qed.

Lemma update_nonloop_index (a : Animation) (now startNow : Z) :
  loop a = false -> 0 <= currentSpriteIndex a < sprites_length a ->
  snd (update a now startNow) = Ok tt /\
  currentSpriteIndex a <= currentSpriteIndex (fst (update a now startNow))
    <= sprites_length a - 1.
Proof.
  intros Hl Hidx. rewrite update_nonloop by exact Hl.
  destruct (getAnimIndex_from_index a now) as (v & -> & Hv); [lia|].
  destruct (totalDurationMs a <=? now - timestampStart a); simpl; split;
    try reflexivity; lia.
Qed.

Lemma run_updates_app (a : Animation) (t1 t2 : list (Z * Z)) :
  run_updates a (t1 ++ t2) = run_updates (run_updates a t1) t2.
Proof. unfold run_updates. apply fold_left_app. Qed.

Lemma run_updates_fields (ticks : list (Z * Z)) (a : Animation) :
  loop (run_updates a ticks) = loop a /\
  sprites (run_updates a ticks) = sprites a.
Proof.
  revert a. induction ticks as [|t ticks IH]; intros a; [split; reflexivity|].
  change (run_updates a (t :: ticks)) with (run_updates (fst (update a (fst t) (snd t))) ticks).
  destruct (IH (fst (update a (fst t) (snd t)))) as [-> ->].
  destruct (update_fields a (fst t) (snd t)) as (-> & -> & _). split; reflexivity.
Qed.

Lemma run_updates_nonloop_index (ticks : list (Z * Z)) (a : Animation) :
  loop a = false -> 0 <= currentSpriteIndex a < sprites_length a ->
  currentSpriteIndex a <= currentSpriteIndex (run_updates a ticks)
    <= sprites_length a - 1.
Proof.
  revert a. induction ticks as [|t ticks IH]; intros a Hl Hidx; [simpl; lia|].
  change (run_updates a (t :: ticks)) with (run_updates (fst (update a (fst t) (snd t))) ticks).
  destruct (update_nonloop_index a (fst t) (snd t) Hl Hidx) as [_ Hstep].
  destruct (update_fields a (fst t) (snd t)) as (Hl' & Hs' & _).
  assert (Hlen : sprites_length (fst (update a (fst t) (snd t))) = sprites_length a)
    by (unfold sprites_length; rewrite Hs'; reflexivity).
  specialize (IH (fst (update a (fst t) (snd t)))). rewrite Hlen, Hl' in IH.
  specialize (IH Hl ltac:(lia)). lia.
Qed.

(** X5.  A non-looping Animation whose index is a frame never steps back:
    whatever clock readings successive [update] calls see, in whatever
    order, the index after more calls is not below the index after fewer,
    and it stays a frame of the sequence. *)
Theorem update_never_steps_back (a : Animation) (ticks more : list (Z * Z))
    (Hloop : loop a = false)
    (Hidx : 0 <= currentSpriteIndex a < sprites_length a) :
  currentSpriteIndex a <= currentSpriteIndex (run_updates a ticks) /\
  currentSpriteIndex (run_updates a ticks)
    <= currentSpriteIndex (run_updates a (ticks ++ more))
    <= sprites_length a - 1.
Proof.
  pose proof (run_updates_nonloop_index ticks a Hloop Hidx) as H1.
  destruct (run_updates_fields ticks a) as [Hl Hs].
  assert (Hlen : sprites_length (run_updates a ticks) = sprites_length a)
    by (unfold sprites_length; rewrite Hs; reflexivity).
  pose proof (run_updates_nonloop_index more (run_updates a ticks)) as H2.
  rewrite Hl, Hlen in H2. specialize (H2 Hloop ltac:(lia)).
  rewrite run_updates_app. lia.
Qed.

Lemma update_never_steps_back_witness :
  loop (start two_frames 0) = false /\
  0 <= currentSpriteIndex (start two_frames 0) < sprites_length (start two_frames 0) /\
  currentSpriteIndex (run_updates (start two_frames 0) [(120, 121)])
    <= currentSpriteIndex (run_updates (start two_frames 0) ([(120, 121)] ++ [(40, 41)])).
Proof.
  assert (Hl : loop (start two_frames 0) = false) by reflexivity.
  assert (Hi : 0 <= currentSpriteIndex (start two_frames 0)
                 < sprites_length (start two_frames 0))
    by (vm_compute; split; [discriminate|reflexivity]).
  split; [exact Hl|]. split; [exact Hi|].
  apply (update_never_steps_back (start two_frames 0) [(120, 121)] [(40, 41)] Hl Hi).
Defined.

(** ** The index invariant *)

Lemma index_ok_same_sprites (a b : Animation) (v : Z) :
  sprites b = sprites a -> currentSpriteIndex b = v ->
  0 <= v -> (v <= sprites_length a - 1 \/ v = 0) -> index_ok b.
Proof.
  intros Hs Hc H0 Hv. unfold index_ok, sprites_length. rewrite Hs, Hc.
  split; assumption.
Qed.

Lemma index_ok_update (a : Animation) (now startNow : Z) :
  index_ok a ->
  snd (update a now startNow) = Ok tt /\ index_ok (fst (update a now startNow)).
Proof.
  intros [H0 Hr].
  destruct (loop a) eqn:Hl.
  - rewrite update_loop by exact Hl.
    assert (Hreb : sprites (rebased a now startNow) = sprites a /\
                   0 <= currentSpriteIndex (rebased a now startNow)).
    { destruct (rebased_fields a now startNow) as (_ & Hs & _). split; [exact Hs|].
      unfold rebased.
      destruct (currentSpriteIndex a =? sprites_length a - 1); [|exact H0].
      destruct (totalDurationMs a <? now - timestampStart a); [|exact H0].
      destruct (now - (timestampStart a + totalDurationMs a) <? totalDurationMs a);
        simpl; lia. }
    destruct Hreb as [Hs Hc].
    destruct (getAnimIndex_from_index (rebased a now startNow) now Hc) as (v & -> & Hv).
    split; [reflexivity|]. simpl.
    apply (index_ok_same_sprites a _ v); [exact Hs|reflexivity|lia|].
    unfold sprites_length in *. rewrite Hs in Hv. lia.
  - rewrite update_nonloop by exact Hl.
    destruct (getAnimIndex_from_index a now H0) as (v & -> & Hv).
    destruct (totalDurationMs a <=? now - timestampStart a); simpl;
      (split; [reflexivity|]);
      apply (index_ok_same_sprites a _ v); try reflexivity; lia.
Qed.

Lemma addSprite_length (a : Animation) (d : SpriteDesc) :
  length (sprites (addSprite a d)) = S (length (sprites a)).
Proof. simpl. rewrite length_app. simpl. lia. Qed.

Lemma index_ok_apply_op (a : Animation) (o : Op) :
  index_ok a -> safe_op a o -> index_ok (apply_op a o).
Proof.
  intros [H0 Hr] Hsafe. destruct o as [|t|d|t t'|i].
  - split; [reflexivity|right; reflexivity].
  - split; assumption.
  - unfold index_ok, sprites_length in *.
    change (sprites (apply_op a (OpAddSprite d)))
      with (sprites (addSprite a d)).
    change (currentSpriteIndex (apply_op a (OpAddSprite d)))
      with (currentSpriteIndex a).
    rewrite addSprite_length. split; [exact H0|]. lia.
  - apply index_ok_update. split; assumption.
  - unfold index_ok, safe_op in *.
    change (currentSpriteIndex (apply_op a (OpSetCurrentSprite i))) with i.
    change (sprites_length (apply_op a (OpSetCurrentSprite i)))
      with (sprites_length a). lia.
Qed.

(** X6.  Starting from the constructor, as long as [setCurrentSprite] is
    only given indices of existing frames, every sequence of [reset],
    [start], [addSprite], [update] and [setCurrentSprite] calls keeps
    [currentSpriteIndex] a frame of the sequence (0 while the sequence is
    empty), and on the resulting object neither [getAnimIndex] nor [update]
    throws. *)
Theorem index_invariant (lp : bool) (ops : list Op)
    (Hsafe : safe_ops (new_Animation lp) ops) :
  let a := fold_left apply_op ops (new_Animation lp) in
  (sprites a = [] -> currentSpriteIndex a = 0) /\
  (sprites a <> [] -> 0 <= currentSpriteIndex a < sprites_length a) /\
  (forall now startNow, (exists v, getAnimIndex a now = Ok v) /\
                        snd (update a now startNow) = Ok tt).
Proof.
  intros a.
  assert (Hok : index_ok a).
  { subst a. assert (H0 : index_ok (new_Animation lp))
      by (split; [reflexivity|right; reflexivity]).
    revert Hsafe H0. generalize (new_Animation lp).
    induction ops as [|o ops IH]; intros b Hsafe Hb; [exact Hb|].
    destruct Hsafe as [Ho Hrest]. simpl.
    apply IH; [exact Hrest|]. apply index_ok_apply_op; assumption. }
  destruct Hok as [H0 Hr]. split; [|split].
  - intros He. unfold sprites_length in Hr. rewrite He in Hr. simpl in Hr. lia.
  - intros Hne. split; [exact H0|]. unfold sprites_length in *.
    destruct (sprites a); [contradiction|]. simpl length in *. lia.
  - intros now startNow. split.
    + destruct (getAnimIndex_from_index a now H0) as (v & Hv & _). eauto.
    + apply index_ok_update. split; assumption.
Qed.

Lemma index_invariant_witness :
  let ops := [OpAddSprite (frame "a" 100); OpAddSprite (frame "b" 50);
              OpStart 0; OpUpdate 120 121; OpSetCurrentSprite 1; OpReset;
              OpUpdate 400 401] in
  safe_ops (new_Animation true) ops /\
  snd (update (fold_left apply_op ops (new_Animation true)) 500 501) = Ok tt.
Proof.
  intros ops.
  assert (Hsafe : safe_ops (new_Animation true) ops).
  { vm_compute. repeat split; discriminate. }
  split; [exact Hsafe|].
  apply (index_invariant true ops Hsafe).
Defined.

(** ** Playback of a non-looping Animation *)

(** X7.  On a non-looping Animation with frames laid end to end, an
    [update] at a [now] strictly inside frame [j] (not before the current
    frame) returns, makes [j] the current frame, so that [getSpriteName()]
    is that frame's name, and leaves [timestampStart] alone. *)
Theorem update_selects_frame (a : Animation) (now startNow j : Z) (sj : AnimSprite)
    (Hloop : loop a = false)
    (Hseq : sequential (sprites a))
    (Hidx : 0 <= currentSpriteIndex a <= j)
    (Hj : js_index (sprites a) j = Some sj)
    (Hin : or_zero (timestampBegin sj) + timestampStart a < now
             < or_zero (timestampEnd sj) + timestampStart a) :
  snd (update a now startNow) = Ok tt /\
  currentSpriteIndex (fst (update a now startNow)) = j /\
  getSpriteName (fst (update a now startNow)) None = Some (sprite_name sj) /\
  timestampStart (fst (update a now startNow)) = timestampStart a.
Proof.
  rewrite update_nonloop by exact Hloop.
  assert (Hfound : getAnimIndex a now = Ok j).
  { pose proof (js_index_inv _ _ _ Hj) as Hjr.
    apply (getAnimIndex_loop_finds a now j sj Hseq Hj);
      [apply contains_now_spec; exact Hin|lia|unfold sprites_length; lia|lia]. }
  rewrite Hfound.
  destruct (totalDurationMs a <=? now - timestampStart a); simpl;
    unfold getSpriteName; simpl; rewrite Hj; repeat split.
Qed.

Lemma update_selects_frame_witness :
  exists sj, js_index (sprites (start two_frames 0)) 1 = Some sj /\
    currentSpriteIndex (fst (update (start two_frames 0) 120 121)) = 1 /\
    getSpriteName (fst (update (start two_frames 0) 120 121)) None = Some "b".
Proof.
  destruct (js_index (sprites (start two_frames 0)) 1) as [sj|] eqn:Hj;
    [|discriminate Hj].
  exists sj. split; [reflexivity|].
  assert (Hn : sprite_name sj = "b")
    by (vm_compute in Hj; injection Hj as <-; reflexivity).
  rewrite <- Hn.
  assert (Hidx : 0 <= currentSpriteIndex (start two_frames 0) <= 1)
    by (vm_compute; split; discriminate).
  assert (Hin : or_zero (timestampBegin sj) + timestampStart (start two_frames 0)
                  < 120
                  < or_zero (timestampEnd sj) + timestampStart (start two_frames 0))
    by (vm_compute in Hj; injection Hj as <-; vm_compute; split; reflexivity).
  destruct (update_selects_frame (start two_frames 0) 120 121 1 sj eq_refl
              two_frames_sequential Hidx Hj Hin) as (_ & Hc & Hname & _).
  split; assumption.
Defined.

(** X8.  A non-looping Animation whose frames all end within the total
    duration, updated at or after [timestampStart + totalDurationMs] while
    its index is a frame, comes to rest on its last frame with [done]
    set. *)
Theorem update_finished_on_last_frame (a : Animation) (now startNow : Z)
    (Hloop : loop a = false)
    (Hidx : 0 <= currentSpriteIndex a <= sprites_length a - 1)
    (Hends : forall m s, js_index (sprites a) m = Some s ->
               or_zero (timestampEnd s) <= totalDurationMs a)
    (Hnow : timestampStart a + totalDurationMs a <= now) :
  snd (update a now startNow) = Ok tt /\
  currentSpriteIndex (fst (update a now startNow)) = sprites_length a - 1 /\
  isDone (fst (update a now startNow)) = true.
Proof.
  rewrite update_nonloop by exact Hloop.
  assert (Hlast : getAnimIndex a now = Ok (sprites_length a - 1)).
  { unfold getAnimIndex.
    rewrite getAnimIndex_loop_all_ended; [| lia | lia |].
    - rewrite (proj2 (Z.leb_le _ _)) by lia. reflexivity.
    - intros m s _ Hs. specialize (Hends m s Hs). unfold endTime. lia. }
  rewrite Hlast, (proj2 (Z.leb_le _ _)) by lia. repeat split.
Qed.

Lemma update_finished_on_last_frame_witness :
  currentSpriteIndex (fst (update (start two_frames 0) 160 161)) = 1 /\
  isDone (fst (update (start two_frames 0) 160 161)) = true.
Proof.
  apply (update_finished_on_last_frame (start two_frames 0) 160 161 eq_refl).
  - vm_compute. split; discriminate.
  - intros m s Hs.
    destruct (two_frames_index m s Hs) as [(_ & _ & ->)|(_ & _ & ->)];
      vm_compute; discriminate.
  - vm_compute. discriminate.
Defined.

(** ** The longest frame *)

Lemma longest_ms_snoc (l : list AnimSprite) (x : AnimSprite) (init : Z) :
  fold_left (fun ms sprite => if ms <? duration sprite then duration sprite else ms)
            (l ++ [x]) init
  = let ms := fold_left (fun ms sprite =>
                 if ms <? duration sprite then duration sprite else ms) l init in
    if ms <? duration x then duration x else ms.
Proof. rewrite fold_left_app. reflexivity. Qed.

(** X9.  [getLongestFrameMs] is never negative, is at least the duration of
    every frame, and is 0 or the duration of one of the frames. *)
Theorem getLongestFrameMs_is_max (a : Animation) :
  0 <= getLongestFrameMs a /\
  (forall (i : nat) s, sprites a !! i = Some s -> duration s <= getLongestFrameMs a) /\
  (getLongestFrameMs a = 0 \/
   exists (i : nat) s, sprites a !! i = Some s /\ duration s = getLongestFrameMs a).
Proof.
  unfold getLongestFrameMs.
  induction (sprites a) as [|x l IH] using rev_ind.
  - simpl. split; [lia|]. split; [|left; reflexivity].
    intros i s Hi. rewrite lookup_nil in Hi. discriminate.
  - rewrite longest_ms_snoc. cbv zeta.
    set (ms := fold_left _ l 0) in *.
    destruct IH as (H0 & Hub & Hat).
    destruct (Z.ltb_spec ms (duration x)) as [Hlt|Hge].
    + split; [lia|]. split.
      * intros i s Hi. apply lookup_snoc_inv in Hi as [[_ Hi]|[_ ->]]; [|lia].
        specialize (Hub _ _ Hi). lia.
      * right. exists (length l), x. split; [|reflexivity].
        rewrite lookup_app_r by lia. rewrite Nat.sub_diag. reflexivity.
    + split; [exact H0|]. split.
      * intros i s Hi. apply lookup_snoc_inv in Hi as [[_ Hi]|[_ ->]]; [|lia].
        apply (Hub _ _ Hi).
      * destruct Hat as [Hz|(i & s & Hi & Hd)]; [left; exact Hz|].
        right. exists i, s. split; [|exact Hd].
        rewrite lookup_app_l; [exact Hi|]. apply lookup_lt_Some in Hi. exact Hi.
Qed.

Lemma getLongestFrameMs_is_max_witness :
  exists s, sprites two_frames !! 1%nat = Some s /\
            duration s <= getLongestFrameMs two_frames.
Proof.
  destruct (sprites two_frames !! 1%nat) as [s|] eqn:Hs; [|discriminate Hs].
  exists s. split; [reflexivity|].
  exact (proj1 (proj2 (getLongestFrameMs_is_max two_frames)) 1%nat s Hs).
Defined.

(** The state of the [reduce] of [getLongestFrameIndex] after a prefix of
    the frames. *)
Lemma longest_index_fold (l : list AnimSprite) :
  exists ms (n : nat),
    fold_left longest_index_step l (0, 0, 0)
      = (ms, Z.of_nat n, Z.of_nat (length l)) /\
    ms = fold_left (fun ms sprite =>
           if ms <? duration sprite then duration sprite else ms) l 0 /\
    (forall (k : nat) s, l !! k = Some s -> duration s <= ms) /\
    ((ms = 0 /\ n = 0%nat) \/
     (0 < ms /\ exists s, l !! n = Some s /\ duration s = ms /\
        forall (k : nat) s', (k < n)%nat -> l !! k = Some s' -> duration s' < ms)).
Proof.
  induction l as [|x l IH] using rev_ind.
  - exists 0, 0%nat. split; [reflexivity|]. split; [reflexivity|]. split.
    + intros k s Hk. rewrite lookup_nil in Hk. discriminate.
    + left. split; reflexivity.
  - destruct IH as (ms & n & Hfold & Hms & Hub & Hat).
    rewrite !fold_left_app, Hfold, <- Hms. simpl.
    destruct (Z.ltb_spec ms (duration x)) as [Hlt|Hge].
    + exists (duration x), (length l). split.
      { rewrite length_app. simpl. repeat f_equal. lia. }
      split; [reflexivity|]. split.
      * intros k s Hk. apply lookup_snoc_inv in Hk as [[_ Hk]|[_ ->]]; [|lia].
        specialize (Hub _ _ Hk). lia.
      * right. assert (0 <= ms) by (destruct Hat as [[-> _]|[? _]]; lia).
        split; [lia|]. exists x. split.
        { rewrite lookup_app_r by lia. rewrite Nat.sub_diag. reflexivity. }
        split; [reflexivity|]. intros k s' Hk Hs'.
        rewrite lookup_app_l in Hs' by exact Hk. specialize (Hub _ _ Hs'). lia.
    + exists ms, n. split.
      { rewrite length_app. simpl. repeat f_equal. lia. }
      split; [reflexivity|]. split.
      * intros k s Hk. apply lookup_snoc_inv in Hk as [[_ Hk]|[_ ->]]; [|lia].
        apply (Hub _ _ Hk).
      * destruct Hat as [Hz|(Hpos & s & Hn & Hd & Hbefore)]; [left; exact Hz|].
        right. split; [exact Hpos|]. exists s.
        pose proof (lookup_lt_Some _ _ _ Hn) as Hnl.
        split; [rewrite lookup_app_l by exact Hnl; exact Hn|].
        split; [exact Hd|]. intros k s' Hk Hs'.
        rewrite lookup_app_l in Hs' by lia. eauto.
Qed.

(** X10.  [getLongestFrameIndex] is 0 when no frame has a positive duration
    (in particular on an empty sequence); otherwise it is the index of the
    first frame whose duration is [getLongestFrameMs]: every frame before it
    is strictly shorter. *)
Theorem getLongestFrameIndex_first_longest (a : Animation) :
  (getLongestFrameMs a = 0 -> getLongestFrameIndex a = 0) /\
  (0 < getLongestFrameMs a ->
   exists (n : nat) s,
     getLongestFrameIndex a = Z.of_nat n /\
     sprites a !! n = Some s /\
     duration s = getLongestFrameMs a /\
     forall (k : nat) s', (k < n)%nat -> sprites a !! k = Some s' ->
       duration s' < duration s).
Proof.
  unfold getLongestFrameIndex, getLongestFrameMs.
  destruct (longest_index_fold (sprites a)) as (ms & n & Hfold & Hms & _ & Hat).
  rewrite Hfold, <- Hms. simpl. split.
  - intros Hz. destruct Hat as [[_ ->]|[Hpos _]]; [reflexivity|lia].
  - intros Hpos. destruct Hat as [[Hz _]|(_ & s & Hn & Hd & Hbefore)]; [lia|].
    exists n, s. rewrite Hd. auto.
Qed.

Lemma getLongestFrameIndex_first_longest_witness :
  0 < getLongestFrameMs two_frames /\
  getLongestFrameIndex two_frames = 0.
Proof.
  assert (Hpos : 0 < getLongestFrameMs two_frames) by reflexivity.
  split; [exact Hpos|].
  destruct (proj2 (getLongestFrameIndex_first_longest two_frames) Hpos)
    as (n & s & Hidx & Hn & Hd & _).
  rewrite Hidx. destruct n as [|[|n]]; [reflexivity| |].
  - vm_compute in Hn. injection Hn as <-. vm_compute in Hd. discriminate Hd.
  - vm_compute in Hn. discriminate Hn.
Defined.

(** ** Cumulative durations *)

Lemma getDurationToIndex_prefix (a : Animation) (i : Z) :
  prefix_sums_ok a -> 0 <= i ->
  getDurationToIndex a i = total_of (map duration (take (Z.to_nat i) (sprites a))).
Proof.
  intros [Htot Hpre] Hi. unfold getDurationToIndex, sprites_length.
  destruct (Z.leb_spec (Z.of_nat (length (sprites a))) i) as [Hge|Hlt].
  - rewrite take_ge by lia. exact Htot.
  - destruct (js_index_Some (sprites a) i) as [s Hs]; [lia|].
    rewrite Hs. apply Hpre. apply js_index_lookup. exact Hs.
Qed.

(** X11.  On an Animation obtained from the constructor through the public
    methods, [getDurationToIndex(i)] is 0 for a negative [i] and the sum of
    the durations of the first [i] frames otherwise (all of them when [i]
    is past the end): it is 0 at 0, the total at [sprites.length], and grows
    by the duration of frame [i] from [i] to [i + 1]. *)
Theorem getDurationToIndex_prefix_sum (a : Animation) (Hreach : reachable a) :
  (forall i, i < 0 -> getDurationToIndex a i = 0) /\
  (forall i, 0 <= i ->
     getDurationToIndex a i
       = total_of (map duration (take (Z.to_nat i) (sprites a)))) /\
  getDurationToIndex a 0 = 0 /\
  getDurationToIndex a (sprites_length a) = getDurationMs a /\
  (forall i s, js_index (sprites a) i = Some s ->
     getDurationToIndex a (i + 1) = getDurationToIndex a i + duration s).
Proof.
  pose proof (reachable_prefix_sums_ok a Hreach) as Hok.
  split; [|split; [|split; [|split]]].
  - intros i Hi. unfold getDurationToIndex, sprites_length.
    rewrite (proj2 (Z.leb_gt _ _)) by lia.
    rewrite js_index_None by lia. reflexivity.
  - intros i Hi. apply getDurationToIndex_prefix; assumption.
  - rewrite getDurationToIndex_prefix by (assumption || lia). reflexivity.
  - unfold getDurationToIndex. rewrite Z.leb_refl. reflexivity.
  - intros i s Hs. pose proof (js_index_inv _ _ _ Hs) as Hr.
    rewrite !getDurationToIndex_prefix by (assumption || lia).
    replace (Z.to_nat (i + 1)) with (S (Z.to_nat i)) by lia.
    rewrite (take_S_r _ _ s) by (apply js_index_lookup; exact Hs).
    rewrite map_app, total_of_app. simpl. lia.
Qed.

Lemma getDurationToIndex_prefix_sum_witness :
  reachable looping_two_frames /\
  getDurationToIndex looping_two_frames 2 = getDurationMs looping_two_frames.
Proof.
  split; [exact looping_two_frames_reachable|].
  exact (proj1 (proj2 (proj2 (proj2
    (getDurationToIndex_prefix_sum looping_two_frames looping_two_frames_reachable))))).
Defined.

(** X12.  On an Animation obtained from the constructor through the public
    methods and whose frames have non-negative durations,
    [getDurationToIndex] is monotone on non-negative indices and never
    exceeds the total. *)
Theorem getDurationToIndex_monotone (a : Animation) (i j : Z)
    (Hreach : reachable a)
    (Hdur : Forall (fun s => 0 <= duration s) (sprites a))
    (Hij : 0 <= i <= j) :
  0 <= getDurationToIndex a i <= getDurationToIndex a j /\
  getDurationToIndex a j <= getDurationMs a.
Proof.
  pose proof (reachable_prefix_sums_ok a Hreach) as Hok.
  assert (Hnn : Forall (fun d => 0 <= d) (map duration (sprites a))).
  { rewrite Forall_map. exact Hdur. }
  rewrite !getDurationToIndex_prefix by (assumption || lia).
  unfold getDurationMs. rewrite (proj1 Hok).
  rewrite <- !firstn_map.
  pose proof (total_of_take_mono _ Hnn 0%nat (Z.to_nat i) ltac:(lia)) as H0.
  pose proof (total_of_take_mono _ Hnn (Z.to_nat i) (Z.to_nat j) ltac:(lia)) as H1.
  rewrite take_0 in H0. change (total_of []) with 0 in H0.
  split; [lia|].
  destruct (Nat.le_gt_cases (Z.to_nat j) (length (map duration (sprites a))))
    as [Hle|Hgt].
  - pose proof (total_of_take_mono _ Hnn _ _ Hle) as H2.
    rewrite firstn_all in H2. exact H2.
  - rewrite take_ge by lia. lia.
Qed.

Lemma getDurationToIndex_monotone_witness :
  reachable looping_two_frames /\
  Forall (fun s => 0 <= duration s) (sprites looping_two_frames) /\
  0 <= 1 <= 2 /\
  getDurationToIndex looping_two_frames 1 <= getDurationToIndex looping_two_frames 2.
Proof.
  assert (Hd : Forall (fun s => 0 <= duration s) (sprites looping_two_frames))
    by (repeat constructor; vm_compute; discriminate).
  assert (Hij : 0 <= 1 <= 2) by lia.
  split; [exact looping_two_frames_reachable|]. split; [exact Hd|].
  split; [exact Hij|].
  apply (getDurationToIndex_monotone looping_two_frames 1 2
           looping_two_frames_reachable Hd Hij).
Defined.

(** ** Frame names *)

(** X13.  [getSpriteName(i)] is [undefined] exactly when [i] is negative or
    not below [sprites.length]; without an argument it reads the current
    frame, so after [setCurrentSprite(i)] it is [getSpriteName(i)].
    [addSprite] leaves the name at every existing index as it was and makes
    the new name (the empty string when the descriptor has none) readable at
    the old length. *)
Theorem getSpriteName_total (a : Animation) (i : Z) :
  (getSpriteName a (Some i) = None <-> i < 0 \/ sprites_length a <= i) /\
  getSpriteName (setCurrentSprite a i) None = getSpriteName a (Some i) /\
  (forall d,
     (0 <= i < sprites_length a ->
        getSpriteName (addSprite a d) (Some i) = getSpriteName a (Some i)) /\
     getSpriteName (addSprite a d) (Some (sprites_length a))
       = Some (match d_name d with Some n => n | None => "" end)).
Proof.
  split; [|split].
  - unfold getSpriteName, sprites_length. split.
    + intros Hn. destruct (js_index (sprites a) i) as [s|] eqn:Hs; [discriminate|].
      destruct (Z_lt_dec i 0); [lia|].
      destruct (Z_le_dec (Z.of_nat (length (sprites a))) i); [lia|].
      destruct (js_index_Some (sprites a) i) as [s Hs']; [lia|]. congruence.
    + intros H. rewrite js_index_None by exact H. reflexivity.
  - reflexivity.
  - intros d. split.
    + intros Hi. unfold getSpriteName, js_index, sprites_length in *.
      destruct (Z.ltb_spec i 0); [lia|]. simpl sprites.
      rewrite lookup_app_l by lia. reflexivity.
    + unfold getSpriteName, js_index, sprites_length.
      destruct (Z.ltb_spec (Z.of_nat (length (sprites a))) 0); [lia|].
      simpl sprites. rewrite Nat2Z.id.
      rewrite lookup_app_r by lia. rewrite Nat.sub_diag. reflexivity.
Qed.

Lemma getSpriteName_total_witness :
  0 <= 1 < sprites_length two_frames /\
  getSpriteName (addSprite two_frames (frame "c" 10)) (Some 1)
    = getSpriteName two_frames (Some 1).
Proof.
  assert (Hi : 0 <= 1 < sprites_length two_frames)
    by (vm_compute; split; [discriminate|reflexivity]).
  split; [exact Hi|].
  exact (proj1 (proj2 (proj2 (getSpriteName_total two_frames 1)) (frame "c" 10)) Hi).
Defined.

(** ** Registering and creating *)

(** X14.  [hasAnimation(name)] returns false exactly when
    [createAnimation(name)] throws the not-found error for that name; for a
    registered name it returns true. *)
Theorem hasAnimation_false_iff_not_found
    (h : Registry.Host) (reg : Registry.State) (animName : string) (now : Z) :
  (Registry.hasAnimation h reg animName = Ok false <->
   fst (Registry.createAnimation h reg animName now)
     = Throw (Error ("No animation exists which is named '" +:+ animName +:+ "'"))) /\
  (is_Some (registered reg animName) ->
   Registry.hasAnimation h reg animName = Ok true).
Proof.
  unfold Registry.hasAnimation, Registry.createAnimation, Registry.not_found.
  split.
  - destruct (decide (animName = "invisible")) as [Hinv|Hinv];
      destruct (Registry.read h reg animName); simpl; split;
      intros H; congruence.
  - intros [b Hb]. rewrite (read_registered h reg animName b Hb). reflexivity.
Qed.

Lemma hasAnimation_false_iff_not_found_witness :
  Registry.hasAnimation Registry.standard_host Registry.empty "nonexistent" = Ok false /\
  Registry.hasAnimation Registry.standard_host Registry.empty "toString" = Ok true.
Proof.
  split; [|reflexivity].
  apply (proj1 (hasAnimation_false_iff_not_found Registry.standard_host
                  Registry.empty "nonexistent" 0)).
  reflexivity.
Defined.

Lemma createAnimationBuilder_ok (h : Registry.Host) (reg reg' : Registry.State)
    (animName : string) (builder : Registry.AnimationBuilder) :
  Registry.createAnimationBuilder h reg animName builder = Ok reg' ->
  (reg' = {| Registry.own := <[animName := builder]> (Registry.own reg);
             Registry.proto := Registry.proto reg |} /\
   (animName <> "__proto__" \/ is_Some (Registry.own reg !! animName))) \/
  (reg' = {| Registry.own := Registry.own reg;
             Registry.proto := Registry.ReplacedBy builder |} /\
   animName = "__proto__" /\ Registry.own reg !! animName = None).
Proof.
  unfold Registry.createAnimationBuilder.
  destruct (Registry.own reg !! animName) as [b|] eqn:Hb.
  - intros H. injection H as <-. left. eauto.
  - destruct (decide (animName = "__proto__")) as [Hp|Hp].
    + intros H. injection H as <-. right. auto.
    + destruct (Registry.chain_write h (Registry.proto reg) animName);
        [|discriminate].
      intros H. injection H as <-. left. auto.
Qed.

(** X15.  A [createAnimationBuilder(name, builder)] that returns registers
    [builder] under [name]: [hasAnimation(name)] is true, for a name other
    than ["invisible"] [createAnimation(name)] returns what [builder]
    makes, named and started, and a later registration under the same name
    leaves the registry as if the earlier one had not happened.  It
    returns whenever the name is already an own property, is
    ["__proto__"], or the prototype chain lets the key be defined.  With a
    name other than ["__proto__"] it defines the own property [name] and
    leaves the prototype alone, and [hasAnimation] and [createAnimation]
    answer as before for every other name.  Under ["__proto__"] it defines
    no own property and makes [builder] the prototype of the registry. *)
Theorem createAnimationBuilder_then_create
    (h : Registry.Host) (reg : Registry.State) (animName : string)
    (builder : Registry.AnimationBuilder) (now : Z) :
  (forall reg',
     Registry.createAnimationBuilder h reg animName builder = Ok reg' ->
     registered reg' animName = Some builder /\
     Registry.hasAnimation h reg' animName = Ok true /\
     (animName <> "invisible" ->
        fst (Registry.createAnimation h reg' animName now)
          = Ok (start (set_name (builder tt) animName) now)) /\
     (forall later,
        Registry.createAnimationBuilder h reg' animName later
          = Registry.createAnimationBuilder h reg animName later) /\
     (Registry.proto reg' = Registry.proto reg ->
      forall other, other <> animName ->
        Registry.hasAnimation h reg' other = Registry.hasAnimation h reg other /\
        fst (Registry.createAnimation h reg' other now)
          = fst (Registry.createAnimation h reg other now))) /\
  (is_Some (Registry.own reg !! animName) \/ animName = "__proto__" \/
   Registry.chain_write h (Registry.proto reg) animName = true ->
   exists reg', Registry.createAnimationBuilder h reg animName builder = Ok reg') /\
  (animName <> "__proto__" ->
   forall reg', Registry.createAnimationBuilder h reg animName builder = Ok reg' ->
     Registry.own reg' = <[animName := builder]> (Registry.own reg) /\
     Registry.proto reg' = Registry.proto reg) /\
  (Registry.own reg !! "__proto__" = None ->
   Registry.createAnimationBuilder h reg "__proto__" builder
     = Ok {| Registry.own := Registry.own reg;
             Registry.proto := Registry.ReplacedBy builder |}).
Proof.
  split; [|split; [|split]].
  - intros reg' Hreg.
    assert (Hregd : registered reg' animName = Some builder).
    { destruct (createAnimationBuilder_ok h reg reg' animName builder Hreg)
        as [[-> _]|(-> & Hp & Hnone)].
      - apply registered_own. simpl. apply lookup_insert_eq.
      - unfold registered, Registry.AnimationBuilder in *. simpl.
        rewrite Hnone. destruct (decide (animName = "__proto__")); [reflexivity|contradiction]. }
    split; [exact Hregd|]. split; [|split; [|split]].
    + unfold Registry.hasAnimation.
      rewrite (read_registered h reg' animName builder Hregd). reflexivity.
    + intros Hinv. unfold Registry.createAnimation.
      destruct (decide (animName = "invisible")); [contradiction|].
      rewrite (read_registered h reg' animName builder Hregd). reflexivity.
    + intros later. clear Hregd. revert Hreg.
      unfold Registry.createAnimationBuilder.
      destruct (Registry.own reg !! animName) as [b|] eqn:Hb.
      * intros H. injection H as <-. simpl Registry.own. simpl Registry.proto.
        unfold Registry.AnimationBuilder in *.
        rewrite lookup_insert_eq, insert_insert_eq. reflexivity.
      * destruct (decide (animName = "__proto__")) as [Hp|Hp].
        -- intros H. injection H as <-. simpl Registry.own. rewrite Hb. reflexivity.
        -- destruct (Registry.chain_write h (Registry.proto reg) animName);
             [|discriminate].
           intros H. injection H as <-. simpl Registry.own. simpl Registry.proto.
           unfold Registry.AnimationBuilder in *.
           rewrite lookup_insert_eq, insert_insert_eq. reflexivity.
    + intros Hproto other Hne.
      assert (Hread : Registry.read h reg' other = Registry.read h reg other).
      { unfold Registry.read. rewrite Hproto.
        destruct (createAnimationBuilder_ok h reg reg' animName builder Hreg)
          as [[-> _]|(-> & _ & _)]; simpl Registry.own;
          unfold Registry.AnimationBuilder in *;
          [rewrite lookup_insert_ne by congruence|]; reflexivity. }
      unfold Registry.hasAnimation, Registry.createAnimation. rewrite Hread.
      split; [reflexivity|].
      destruct (decide (other = "invisible")); [reflexivity|].
      destruct (Registry.read h reg other); reflexivity.
  - intros Hcan. unfold Registry.createAnimationBuilder.
    destruct (Registry.own reg !! animName) as [b|] eqn:Hb; [eauto|].
    destruct (decide (animName = "__proto__")); [eauto|].
    destruct Hcan as [[b Hb']|[?|Hw]].
    + unfold Registry.AnimationBuilder in *. congruence.
    + contradiction.
    + rewrite Hw. eauto.
  - intros Hp reg' Hreg.
    destruct (createAnimationBuilder_ok h reg reg' animName builder Hreg)
      as [[-> _]|(_ & ? & _)]; [split; reflexivity|contradiction].
  - intros Hnone. unfold Registry.createAnimationBuilder, Registry.AnimationBuilder in *.
    rewrite Hnone. reflexivity.
Qed.

Lemma createAnimationBuilder_then_create_witness :
  exists reg',
    Registry.createAnimationBuilder Registry.standard_host Registry.empty
      "walk" (fun _ => two_frames) = Ok reg' /\
    fst (Registry.createAnimation Registry.standard_host reg' "walk" 7)
      = Ok (start (set_name two_frames "walk") 7).
Proof.
  destruct (Registry.createAnimationBuilder Registry.standard_host Registry.empty
              "walk" (fun _ => two_frames)) as [reg'|e] eqn:Hreg;
    [|vm_compute in Hreg; discriminate Hreg].
  exists reg'. split; [reflexivity|].
  destruct (proj1 (createAnimationBuilder_then_create Registry.standard_host
                     Registry.empty "walk" (fun _ => two_frames) 7) reg' Hreg)
    as (_ & _ & Hcreate & _).
  apply Hcreate. discriminate.
Defined.

(** A registration under ["__proto__"] on a standard host: the builder is
    found under that name, and names of [Function.prototype] that were
    unknown are now inherited. *)
Example proto_registration_scenario :
  let reg' := {| Registry.own := ∅;
                 Registry.proto := Registry.ReplacedBy (fun _ => two_frames) |} in
  Registry.createAnimationBuilder Registry.standard_host Registry.empty
    "__proto__" (fun _ => two_frames) = Ok reg' /\
  fst (Registry.createAnimation Registry.standard_host Registry.empty "__proto__" 7)
    = Throw TypeError /\
  fst (Registry.createAnimation Registry.standard_host reg' "__proto__" 7)
    = Ok (start (set_name two_frames "__proto__") 7) /\
  Registry.hasAnimation Registry.standard_host Registry.empty "call" = Ok false /\
  Registry.hasAnimation Registry.standard_host reg' "call" = Ok true /\
  Registry.hasAnimation Registry.standard_host reg' "caller" = Throw TypeError.
Proof. repeat split. Qed.
(** ** Frames tile the timeline *)

(** X16.  On an Animation obtained from the constructor through the public
    methods the frames tile the timeline: the first frame begins at 0, each
    frame ends where the next one begins, and the last frame ends at
    [totalDurationMs]; when no duration is negative the frames are laid end
    to end in the order of the sequence. *)
Theorem frames_tile_timeline (a : Animation) (Hreach : reachable a) :
  (forall s, sprites a !! 0%nat = Some s -> timestampBegin s = Some 0) /\
  (forall (i : nat) s s', sprites a !! i = Some s -> sprites a !! S i = Some s' ->
     timestampEnd s = timestampBegin s') /\
  (forall s, sprites a !! Nat.pred (length (sprites a)) = Some s ->
     timestampEnd s = Some (totalDurationMs a)) /\
  (Forall (fun s => 0 <= duration s) (sprites a) -> sequential (sprites a)).
Proof.
  pose proof (reachable_frame_offsets_ok a Hreach) as Hoff.
  destruct (reachable_prefix_sums_ok a Hreach) as [Htot Hpre].
  assert (Hend : forall (i : nat) s, sprites a !! i = Some s ->
            or_zero (timestampEnd s)
              = total_of (map duration (take (S i) (sprites a)))).
  { intros i s Hi. destruct (Hoff _ _ Hi) as [_ ->]. simpl.
    rewrite (take_S_r _ _ s Hi), map_app, total_of_app, <- (Hpre _ _ Hi).
    simpl. lia. }
  assert (Hbegin : forall (i : nat) s, sprites a !! i = Some s ->
            or_zero (timestampBegin s)
              = total_of (map duration (take i (sprites a)))).
  { intros i s Hi. destruct (Hoff _ _ Hi) as [-> _]. simpl. apply Hpre, Hi. }
  split; [|split; [|split]].
  - intros s Hs. destruct (Hoff _ _ Hs) as [-> _].
    rewrite (Hpre _ _ Hs). reflexivity.
  - intros i s s' Hi Hi'.
    destruct (Hoff _ _ Hi) as [_ Hes]. destruct (Hoff _ _ Hi') as [Hbs' _].
    pose proof (Hend _ _ Hi) as He. pose proof (Hbegin _ _ Hi') as Hb.
    rewrite Hes in He |- *. rewrite Hbs' in Hb |- *. simpl in He, Hb.
    f_equal. lia.
  - intros s Hs. pose proof (lookup_lt_Some _ _ _ Hs) as Hlt.
    destruct (Hoff _ _ Hs) as [_ Hes]. pose proof (Hend _ _ Hs) as He.
    rewrite Hes in He |- *. simpl in He. f_equal. rewrite He, Htot.
    rewrite take_ge by lia. reflexivity.
  - intros Hdur.
    assert (Hnn : Forall (fun d => 0 <= d) (map duration (sprites a))).
    { rewrite Forall_map. exact Hdur. }
    split.
    + intros i s Hi. rewrite (Hbegin _ _ Hi), (Hend _ _ Hi), <- !firstn_map.
      apply total_of_take_mono; [exact Hnn|lia].
    + intros i j si sj Hij Hi Hj.
      rewrite (Hend _ _ Hi), (Hbegin _ _ Hj), <- !firstn_map.
      apply total_of_take_mono; [exact Hnn|lia].
Qed.

Lemma frames_tile_timeline_witness :
  reachable looping_two_frames /\
  Forall (fun s => 0 <= duration s) (sprites looping_two_frames) /\
  sequential (sprites looping_two_frames).
Proof.
  assert (Hd : Forall (fun s => 0 <= duration s) (sprites looping_two_frames))
    by (repeat constructor; vm_compute; discriminate).
  split; [exact looping_two_frames_reachable|]. split; [exact Hd|].
  exact (proj2 (proj2 (proj2
    (frames_tile_timeline looping_two_frames looping_two_frames_reachable))) Hd).
Defined.

(** ** Wrapping *)

(** X17.  When a looping Animation with a positive total duration wraps
    (an [update] on the last frame, more than the total after the origin)
    and the clock does not run backwards ([now <= startNow], the second
    reading being the one [start()] takes), the new origin is later than the
    old one, not after the second reading, and less than one total duration
    before [now]; the index is what the lookup from frame 0 gives at [now]
    against the new origin, and [done] is false. *)
Theorem update_wrap_within_cycle (a : Animation) (now startNow : Z)
    (Hloop : loop a = true)
    (Hlast : currentSpriteIndex a = sprites_length a - 1)
    (Helapsed : totalDurationMs a < now - timestampStart a)
    (Hpos : 0 < totalDurationMs a)
    (Hclock : now <= startNow) :
  now - timestampStart (fst (update a now startNow)) < totalDurationMs a /\
  timestampStart a < timestampStart (fst (update a now startNow)) <= startNow /\
  getAnimIndex (setCurrentSprite (fst (update a now startNow)) 0) now
    = Ok (currentSpriteIndex (fst (update a now startNow))) /\
  isDone (fst (update a now startNow)) = false.
Proof.
  rewrite update_loop by exact Hloop.
  rewrite (rebased_on_last_frame a now startNow Hlast Helapsed).
  set (origin := if now - (timestampStart a + totalDurationMs a) <? totalDurationMs a
                 then timestampStart a + totalDurationMs a else startNow).
  assert (Ho : now - origin < totalDurationMs a /\
               timestampStart a < origin <= startNow).
  { unfold origin.
    destruct (Z.ltb_spec (now - (timestampStart a + totalDurationMs a))
                (totalDurationMs a)); lia. }
  destruct (getAnimIndex_returns (set_timestampStart (reset a) origin) now)
    as (v & Hv & _); [simpl; lia|].
  rewrite Hv. simpl. split; [lia|]. split; [lia|]. split; [exact Hv|reflexivity].
Qed.

Lemma update_wrap_within_cycle_witness :
  400 - timestampStart (fst (update looping_two_frames 400 401)) < 150 /\
  timestampStart looping_two_frames
    < timestampStart (fst (update looping_two_frames 400 401)) <= 401 /\
  isDone (fst (update looping_two_frames 400 401)) = false.
Proof.
  destruct (update_wrap_within_cycle looping_two_frames 400 401)
    as (H1 & H2 & _ & H4); try reflexivity; [vm_compute; discriminate|].
  split; [exact H1|]. split; [exact H2|exact H4].
Defined.

(** X18.  [update] moves [timestampStart] only when it wraps: if the origin
    after the call differs from the origin before, the Animation loops, was
    on its last frame and more than the total duration had passed. *)
Theorem update_rebases_only_on_wrap (a : Animation) (now startNow : Z)
    (Hmoved : timestampStart (fst (update a now startNow)) <> timestampStart a) :
  loop a = true /\
  currentSpriteIndex a = sprites_length a - 1 /\
  totalDurationMs a < now - timestampStart a.
Proof.
  destruct (loop a) eqn:Hl.
  - rewrite update_loop in Hmoved by exact Hl.
    assert (Hreb : timestampStart (rebased a now startNow) <> timestampStart a)
      by (destruct (getAnimIndex (rebased a now startNow) now); exact Hmoved).
    unfold rebased in Hreb.
    destruct (Z.eqb_spec (currentSpriteIndex a) (sprites_length a - 1));
      [|contradiction].
    destruct (Z.ltb_spec (totalDurationMs a) (now - timestampStart a));
      [|contradiction].
    auto.
  - rewrite update_nonloop in Hmoved by exact Hl. exfalso. apply Hmoved.
    destruct (getAnimIndex a now); [|reflexivity].
    destruct (totalDurationMs a <=? now - timestampStart a); reflexivity.
Qed.

Lemma update_rebases_only_on_wrap_witness :
  timestampStart (fst (update looping_two_frames 190 191))
    <> timestampStart looping_two_frames /\
  currentSpriteIndex looping_two_frames = sprites_length looping_two_frames - 1.
Proof.
  assert (Hm : timestampStart (fst (update looping_two_frames 190 191))
               <> timestampStart looping_two_frames)
    by (vm_compute; discriminate).
  split; [exact Hm|].
  exact (proj1 (proj2 (update_rebases_only_on_wrap looping_two_frames 190 191 Hm))).
Defined.
